(** * soramimic-tutorial: phrase segmentation and nearest-word matching

    A shallow embedding of [main.py] and the properties its specification
    states about it.

    Conventions of the embedding.
    - A Python [str] is the list of its Unicode code points ([N]); this is
      the granularity at which [in], [split], [+=] and the edit distance of
      the [editdistance] package work.
    - The dicts the program builds have a fixed set of keys and are modelled
      as records whose fields carry the keys' names.
    - Operations that can raise ([l[i]], [open]) return a [result]; the
      [let*] notation threads the exception.
    - The MeCab tagger and the file system are outside the program; they are
      section variables. *)

From Stdlib Require Import String Ascii.
From Stdlib Require Import NArith Arith Lia Bool List.
From Stdlib Require Import Sorting.Sorted Sorting.Permutation.
Import ListNotations.

Set Implicit Arguments.

(** ** Python strings, exceptions and built-ins *)

Module Py.

Definition str := list N.

(** An ASCII literal as a Python string (one code point per character). *)
Definition lit (s : string) : str :=
  map N_of_ascii (list_ascii_of_string s).

Inductive exn := IndexError | OSError.

Inductive result (A : Type) : Type :=
| Ok (a : A)
| Raise (e : exn).

Arguments Ok {A} a.
Arguments Raise {A} e.

Definition bind {A B} (m : result A) (k : A -> result B) : result B :=
  match m with
  | Ok a => k a
  | Raise e => Raise e
  end.

(** [l[i]] for a non-negative literal index. *)
Definition getitem {A} (l : list A) (i : nat) : result A :=
  match nth_error l i with
  | Some x => Ok x
  | None => Raise IndexError
  end.

(** [c in s] for a single character [c]. *)
Definition has_char (c : N) (s : str) : bool := existsb (N.eqb c) s.

Fixpoint starts_with (p s : str) : bool :=
  match p, s with
  | [], _ => true
  | _ :: _, [] => false
  | a :: p', b :: s' => N.eqb a b && starts_with p' s'
  end.

(** [sub in s]: substring test. *)
Fixpoint contains (sub s : str) : bool :=
  starts_with sub s ||
  match s with
  | [] => false
  | _ :: s' => contains sub s'
  end.

Definition str_eqb (a b : str) : bool :=
  if list_eq_dec N.eq_dec a b then true else false.

(** [s.split(sep)] for a one-character separator. *)
Fixpoint split (s : str) (sep : N) : list str :=
  match s with
  | [] => [[]]
  | c :: s' =>
      if N.eqb c sep then [] :: split s' sep
      else match split s' sep with
           | [] => [[c]]
           | f :: fs => (c :: f) :: fs
           end
  end.

(** [sep.join(l)]. *)
Fixpoint join (sep : str) (l : list str) : str :=
  match l with
  | [] => []
  | [a] => a
  | a :: l' => a ++ sep ++ join sep l'
  end.

(** The line boundaries of [str.splitlines]. *)
Definition is_linebreak (c : N) : bool :=
  existsb (N.eqb c)
    [0x0a; 0x0b; 0x0c; 0x0d; 0x1c; 0x1d; 0x1e; 0x85; 0x2028; 0x2029]%N.

(** [s.splitlines()]: lines without their terminators, "\r\n" counting as
    one terminator, no empty last line after a final terminator. *)
Fixpoint splitlines (s : str) : list str :=
  match s with
  | [] => []
  | c :: s' =>
      if is_linebreak c then
        [] :: match s' with
              | c' :: s'' =>
                  if N.eqb c 0x0d && N.eqb c' 0x0a then splitlines s''
                  else splitlines s'
              | [] => []
              end
      else match splitlines s' with
           | [] => [[c]]
           | l :: ls => (c :: l) :: ls
           end
  end.

(** [l[:-1]]. *)
Definition drop_last {A} (l : list A) : list A := removelast l.

(** Truth value of a string: non-empty. *)
Definition truthy (s : str) : bool :=
  match s with
  | [] => false
  | _ :: _ => true
  end.

End Py.

Import Py.

Notation "'let*' x ':=' e 'in' k" :=
  (Py.bind e (fun x => k))
    (at level 10, x name, e at level 100, k at level 200).

(** ** String constants of the program *)

Definition TAB : N := 0x09.
Definition COMMA : N := 0x2c.
Definition STAR : str := [0x2a]%N.

(** Parts of speech that start a phrase ([phrase_break_pos_tags]):
    meishi (noun), doushi (verb), settoushi (prefix), fukushi (adverb),
    kandoushi (interjection), keiyoushi (adjective), keiyoudoushi
    (adjectival noun), rentaishi (adnominal). *)
Definition MEISHI : str := [0x540d; 0x8a5e]%N.
Definition DOUSHI : str := [0x52d5; 0x8a5e]%N.
Definition SETTOUSHI : str := [0x63a5; 0x982d; 0x8a5e]%N.
Definition FUKUSHI : str := [0x526f; 0x8a5e]%N.
Definition KANDOUSHI : str := [0x611f; 0x52d5; 0x8a5e]%N.
Definition KEIYOUSHI : str := [0x5f62; 0x5bb9; 0x8a5e]%N.
Definition KEIYOUDOUSHI : str := [0x5f62; 0x5bb9; 0x52d5; 0x8a5e]%N.
Definition RENTAISHI : str := [0x9023; 0x4f53; 0x8a5e]%N.

Definition phrase_break_pos_tags : list str :=
  [MEISHI; DOUSHI; SETTOUSHI; FUKUSHI; KANDOUSHI; KEIYOUSHI; KEIYOUDOUSHI;
   RENTAISHI].

(** setsubi (suffix), sahen-setsuzoku (irregular verbal noun connection),
    hijiritsu (non-independent), sahen-suru (the irregular conjugation of
    suru). *)
Definition SETSUBI : str := [0x63a5; 0x5c3e]%N.
Definition SAHEN_SETSUZOKU : str := [0x30b5; 0x5909; 0x63a5; 0x7d9a]%N.
Definition HIJIRITSU : str := [0x975e; 0x81ea; 0x7acb]%N.
Definition SAHEN_SURU : str := [0x30b5; 0x5909; 0x30fb; 0x30b9; 0x30eb]%N.

(** ** Data model *)

Module Token.
Record t := mk {
  surface_form : str;
  pos : str;
  pos_detail_1 : str;
  pos_detail_2 : str;
  pos_detail_3 : str;
  conjugated_type : str;
  conjugated_form : str;
  basic_form : str;
  reading : str;
  pronunciation : str
}.
End Token.

Module Phrase.
Record t := mk {
  surface : str;
  pronunciation : str
}.
End Phrase.

Module WordEntry.
Record t := mk {
  id : nat;
  surface : str;
  pronunciation : str
}.
End WordEntry.

(** The dicts handed to [calculate_distance] only need a ['pronunciation']
    key. *)
Class Pronounced (A : Type) := pronunciation_of : A -> str.
#[global] Instance Pronounced_Token : Pronounced Token.t := Token.pronunciation.
#[global] Instance Pronounced_Phrase : Pronounced Phrase.t := Phrase.pronunciation.
#[global] Instance Pronounced_WordEntry : Pronounced WordEntry.t :=
  WordEntry.pronunciation.

(** ** PhraseTokenizer.tokenize *)

(** The dict literal of lines 62-73, its subscripts evaluated in order. *)
Definition make_token (word_surface : str) (pos_info : list str)
  : result Token.t :=
  let n := length pos_info in
  let* pos := getitem pos_info 0 in
  let* pos_detail_1 := if 1 <? n then getitem pos_info 1 else Ok STAR in
  let* pos_detail_2 := if 2 <? n then getitem pos_info 2 else Ok STAR in
  let* pos_detail_3 := if 3 <? n then getitem pos_info 3 else Ok STAR in
  let* conjugated_type := if 4 <? n then getitem pos_info 4 else Ok STAR in
  let* conjugated_form := if 5 <? n then getitem pos_info 5 else Ok STAR in
  let* basic_form := if 6 <? n then getitem pos_info 6 else Ok word_surface in
  let* reading := if 7 <? n then getitem pos_info 7 else Ok [] in
  let* pronunciation := if 8 <? n then getitem pos_info 8 else Ok [] in
  Ok (Token.mk word_surface pos pos_detail_1 pos_detail_2 pos_detail_3
        conjugated_type conjugated_form basic_form reading pronunciation).

(** One iteration of the loop of lines 56-74: [None] is [continue]. *)
Definition token_of_line (line : str) : result (option Token.t) :=
  if negb (has_char TAB line) then Ok None
  else
    let parts := split line TAB in
    let* word_surface := getitem parts 0 in
    let* features := getitem parts 1 in
    let pos_info := split features COMMA in
    let* token := make_token word_surface pos_info in
    Ok (Some token).

Fixpoint tokenize_loop (mecab_result : list str) (tokens : list Token.t)
  : result (list Token.t) :=
  match mecab_result with
  | [] => Ok tokens
  | line :: rest =>
      let* t := token_of_line line in
      match t with
      | None => tokenize_loop rest tokens
      | Some token => tokenize_loop rest (tokens ++ [token])
      end
  end.

Section Tokenizer.

(** [self.m.parse]: the MeCab tagger, from a text to its output text. *)
Variable mecab_parse : str -> str.

Definition tokenize (text : str) : result (list Token.t) :=
  let mecab_result := splitlines (mecab_parse text) in
  let mecab_result := drop_last mecab_result in
  tokenize_loop mecab_result [].

End Tokenizer.

(** ** PhraseTokenizer.split_text_into_phrases *)

Definition pos_detail_of (token : Token.t) : str :=
  join [COMMA]
    [Token.pos_detail_1 token; Token.pos_detail_2 token;
     Token.pos_detail_3 token].

(** Lines 101-110: the break decision for [token], given the flag and the
    token before it ([None] on the first iteration). *)
Definition should_break (consider_non_independent_nouns_as_breaks : bool)
  (previous_token : option Token.t) (token : Token.t) : bool :=
  let pos_info := Token.pos token in
  let pos_detail := pos_detail_of token in
  let should_break := existsb (str_eqb pos_info) phrase_break_pos_tags in
  if negb consider_non_independent_nouns_as_breaks then
    let should_break := should_break && negb (contains SETSUBI pos_detail) in
    let should_break :=
      should_break &&
      negb (str_eqb pos_info DOUSHI && contains SAHEN_SETSUZOKU pos_detail) in
    let should_break := should_break && negb (contains HIJIRITSU pos_detail) in
    match previous_token with
    | Some previous_token =>
        let previous_pos_info := Token.pos previous_token in
        let previous_pos_detail := pos_detail_of previous_token in
        let should_break :=
          should_break && negb (str_eqb previous_pos_info SETTOUSHI) in
        should_break &&
        negb (contains SAHEN_SETSUZOKU previous_pos_detail &&
              str_eqb pos_info DOUSHI &&
              str_eqb (Token.conjugated_type token) SAHEN_SURU)
    | None => should_break
    end
  else should_break.

(** *** The phrase dicts

    [current_phrase] is a dict that the loop updates in place and appends
    to [segmented_text], so the list holds references to dicts that the loop
    may still write. The store keeps the dicts the function creates,
    addressed by their order of creation. *)
Module Store.

Definition addr := nat.
Definition t := list Phrase.t.

Definition alloc (h : t) (p : Phrase.t) : t * addr := (h ++ [p], length h).

Definition get (h : t) (a : addr) : Phrase.t := nth a h (Phrase.mk [] []).

Fixpoint update (h : t) (a : addr) (f : Phrase.t -> Phrase.t) : t :=
  match h, a with
  | [], _ => []
  | p :: h', 0 => f p :: h'
  | p :: h', S a' => p :: update h' a' f
  end.

End Store.

Definition empty_phrase : Phrase.t := Phrase.mk [] [].

(** The variables of the loop of lines 94-119, and the store. *)
Record loop_vars := mk_loop_vars {
  phrases : Store.t;
  segmented_text : list Store.addr;
  current_phrase : Store.addr;
  previous_token : option Token.t
}.

(** Lines 89-92. *)
Definition loop_init : loop_vars :=
  let '(h, current) := Store.alloc [] empty_phrase in
  mk_loop_vars h [] current None.

(** [if current_phrase['surface']: segmented_text.append(current_phrase)]
    (lines 113-114 and 121-122). *)
Definition append_current (h : Store.t) (segmented : list Store.addr)
  (current : Store.addr) : list Store.addr :=
  if truthy (Phrase.surface (Store.get h current))
  then segmented ++ [current]
  else segmented.

(** One iteration of the loop (lines 95-119). *)
Definition loop_body (flag : bool) (vars : loop_vars) (token : Token.t)
  : loop_vars :=
  let word_surface := Token.surface_form token in
  let word_pronunciation := Token.pronunciation token in
  let '(h, segmented, current) :=
    if should_break flag (previous_token vars) token then
      let segmented :=
        append_current (phrases vars) (segmented_text vars)
          (current_phrase vars) in
      let '(h, current) := Store.alloc (phrases vars) empty_phrase in
      (h, segmented, current)
    else (phrases vars, segmented_text vars, current_phrase vars) in
  let h :=
    Store.update h current
      (fun p => Phrase.mk (Phrase.surface p ++ word_surface)
                          (Phrase.pronunciation p)) in
  let h :=
    Store.update h current
      (fun p => Phrase.mk (Phrase.surface p)
                          (Phrase.pronunciation p ++ word_pronunciation)) in
  mk_loop_vars h segmented current (Some token).

(** Lines 88-123: from the tokens to the phrases, the returned list read
    through the store as the caller finds it. *)
Definition segment (tokens : list Token.t) (flag : bool) : list Phrase.t :=
  let vars := fold_left (loop_body flag) tokens loop_init in
  let segmented :=
    append_current (phrases vars) (segmented_text vars)
      (current_phrase vars) in
  map (Store.get (phrases vars)) segmented.

(** *** The segmenter as a state machine on values

    The state of the specification: the phrases emitted so far, the
    accumulator and the previous token. [segment_refines] below shows that
    the loop above computes it. *)
Record machine := mk_machine {
  emitted : list Phrase.t;
  accumulator : Phrase.t;
  previous : option Token.t
}.

Definition machine_init : machine := mk_machine [] empty_phrase None.

Definition emit (emitted : list Phrase.t) (accumulator : Phrase.t)
  : list Phrase.t :=
  if truthy (Phrase.surface accumulator)
  then emitted ++ [accumulator]
  else emitted.

Definition machine_step (flag : bool) (m : machine) (token : Token.t)
  : machine :=
  let '(out, acc) :=
    if should_break flag (previous m) token
    then (emit (emitted m) (accumulator m), empty_phrase)
    else (emitted m, accumulator m) in
  mk_machine out
    (Phrase.mk (Phrase.surface acc ++ Token.surface_form token)
               (Phrase.pronunciation acc ++ Token.pronunciation token))
    (Some token).

Definition run_machine (tokens : list Token.t) (flag : bool)
  : list Phrase.t :=
  let m := fold_left (machine_step flag) tokens machine_init in
  emit (emitted m) (accumulator m).

(** The loop variables hold the state [m]: the dicts of [segmented_text]
    were all created before [current_phrase], which is the last one. *)
Definition holds (vars : loop_vars) (m : machine) : Prop :=
  S (current_phrase vars) = length (phrases vars) /\
  Forall (fun a => a < current_phrase vars) (segmented_text vars) /\
  map (Store.get (phrases vars)) (segmented_text vars) = emitted m /\
  Store.get (phrases vars) (current_phrase vars) = accumulator m /\
  previous_token vars = previous m.

(** ** Distances and ranking *)

Definition min3 (a b c : nat) : nat := Nat.min a (Nat.min b c).

(** [editdistance.eval]: the unit-cost Levenshtein distance of two
    sequences, here of code points. *)
Fixpoint ed_eval (a : str) : str -> nat :=
  match a with
  | [] => fun b => length b
  | x :: a' =>
      fix against (b : str) : nat :=
        match b with
        | [] => length a
        | y :: b' =>
            if N.eqb x y then ed_eval a' b'
            else S (min3 (ed_eval a' b) (against b') (ed_eval a' b'))
        end
  end.

Definition calculate_distance {A B} `{Pronounced A} `{Pronounced B}
  (dict1 : A) (dict2 : B) : nat :=
  ed_eval (pronunciation_of dict1) (pronunciation_of dict2).

(** [sorted(l, key=key)] is a stable sort. The stable sorted arrangement of
    a list is unique (lemma [py_sorted_unique] below), so the insertion sort
    here returns what Python's merge sort returns. *)
Fixpoint insert_by {A} (key : A -> nat) (x : A) (l : list A) : list A :=
  match l with
  | [] => [x]
  | y :: l' => if key x <=? key y then x :: l else y :: insert_by key x l'
  end.

Definition py_sorted {A} (key : A -> nat) (l : list A) : list A :=
  fold_right (insert_by key) [] l.

(** The body of [sort_by_distance], for any representation [B] of the
    dicts of the word list. *)
Definition sort_by_distance {A B} `{Pronounced A} `{Pronounced B}
  (target_word : A) (wordlist : list B) : list B :=
  let distances :=
    map (fun word => (word, calculate_distance target_word word)) wordlist in
  let sorted_distances := py_sorted snd distances in
  let sorted_wordlist := map fst sorted_distances in
  sorted_wordlist.

(** *** The word list as an object

    [wordlist] is a list object that holds references to dicts; the caller
    keeps it and passes it to every call. The heap has the dicts and the
    lists of references; [distances] and [sorted_distances] are local to a
    call and stay values. *)
Module Heap.

Definition addr := nat.

Record t := mk {
  dicts : list WordEntry.t;
  lists : list (list addr)
}.

Definition dict (h : t) (a : addr) : WordEntry.t :=
  nth a (dicts h) (WordEntry.mk 0 [] []).

Definition list_at (h : t) (a : addr) : list addr := nth a (lists h) [].

Definition alloc_list (h : t) (l : list addr) : t * addr :=
  (mk (dicts h) (lists h ++ [l]), length (lists h)).

(** A reference to a dict has the dict's pronunciation. *)
Definition pronounced (h : t) : Pronounced addr :=
  fun a => WordEntry.pronunciation (dict h a).

End Heap.

(** [sort_by_distance] called on the list object at [wordlist]: it reads
    the list and the dicts and returns a new list of the same references. *)
Definition sort_by_distance_in (h : Heap.t) (target_word : Phrase.t)
  (wordlist : Heap.addr) : Heap.t * Heap.addr :=
  let sorted_wordlist :=
    @sort_by_distance _ _ _ (Heap.pronounced h) target_word
      (Heap.list_at h wordlist) in
  Heap.alloc_list h sorted_wordlist.

(** ** Reference word list and end-to-end matching *)

Module Closest.
Record t := mk {
  closest_word : WordEntry.t;
  original_phrase : Phrase.t
}.
End Closest.

(** [enumerate(l)]. *)
Definition enumerate {A} (l : list A) : list (nat * A) :=
  combine (seq 0 (length l)) l.

(** Lines 177-181, the body of the loop of [find_closest_words]: the first
    element of the ranking, paired with the phrase. *)
Definition find_closest_word (phrase : Phrase.t)
  (wordlist : list WordEntry.t) : result Closest.t :=
  let sorted_words := sort_by_distance phrase wordlist in
  let* first := getitem sorted_words 0 in
  Ok (Closest.mk first phrase).

Fixpoint find_closest_loop (phrases : list Phrase.t)
  (wordlist : list WordEntry.t) (closest_words : list Closest.t)
  : result (list Closest.t) :=
  match phrases with
  | [] => Ok closest_words
  | phrase :: rest =>
      let* closest_word := find_closest_word phrase wordlist in
      find_closest_loop rest wordlist (closest_words ++ [closest_word])
  end.

Section Program.

Variable mecab_parse : str -> str.

(** [open(filepath, 'r', encoding='utf-8')] followed by [file.read()]:
    the decoded content, or the exception [open] raises. *)
Variable read_file : str -> result str.

Definition split_text_into_phrases (text : str)
  (consider_non_independent_nouns_as_breaks : bool)
  : result (list Phrase.t) :=
  let* tokens := tokenize mecab_parse text in
  Ok (segment tokens consider_non_independent_nouns_as_breaks).

Definition get_pronunciation (text : str) : result str :=
  let* tokens := tokenize mecab_parse text in
  let pronunciation :=
    join []
      (map Token.pronunciation
         (filter (fun token => truthy (Token.pronunciation token)) tokens)) in
  Ok pronunciation.

Fixpoint load_loop (lines : list (nat * str)) (wordlist : list WordEntry.t)
  : result (list WordEntry.t) :=
  match lines with
  | [] => Ok wordlist
  | (id, line) :: rest =>
      let* pronunciation := get_pronunciation line in
      load_loop rest (wordlist ++ [WordEntry.mk id line pronunciation])
  end.

Definition load_wordlist (filepath : str) : result (list WordEntry.t) :=
  let* content := read_file filepath in
  let lines := splitlines content in
  load_loop (enumerate lines) [].

(** The call of line 173 leaves the flag at its default, [True]. *)
Definition find_closest_words (text : str) (wordlist : list WordEntry.t)
  : result (list Closest.t) :=
  let* phrases := split_text_into_phrases text true in
  find_closest_loop phrases wordlist [].

End Program.

(** ** The specification's reading of the token record and of the break rule *)

(** A token record read with the defaults of the data model: every field
    the record lacks takes its default. *)
Definition token_with_defaults (surface : str) (fields : list str)
  : Token.t :=
  Token.mk surface
    (nth 0 fields [])
    (nth 1 fields STAR) (nth 2 fields STAR) (nth 3 fields STAR)
    (nth 4 fields STAR) (nth 5 fields STAR)
    (nth 6 fields surface)
    (nth 7 fields []) (nth 8 fields []).

(** The tokens of a list of tagger output lines. *)
Definition tokens_of_line (line : str) : list Token.t :=
  if has_char TAB line then
    let parts := split line TAB in
    [token_with_defaults (nth 0 parts []) (split (nth 1 parts []) COMMA)]
  else [].

Definition tokens_of_lines (lines : list str) : list Token.t :=
  flat_map tokens_of_line lines.

(** The pronunciation of a text such as a line of the word list: the
    pronunciations of all its tokens, no phrase boundary considered. *)
Definition pronunciation_of_text (mecab_parse : str -> str) (text : str)
  : str :=
  concat (map Token.pronunciation
            (tokens_of_lines (drop_last (splitlines (mecab_parse text))))).

(** Step 1 of the break decision: the part of speech is a boundary one. *)
Definition base_condition (token : Token.t) : bool :=
  existsb (str_eqb (Token.pos token)) phrase_break_pos_tags.

(** Step 2 of the break decision: the conjunction of the suppression
    rules. *)
Definition suppression_rules (previous : option Token.t) (token : Token.t)
  : bool :=
  negb (contains SETSUBI (pos_detail_of token)) &&
  negb (str_eqb (Token.pos token) DOUSHI &&
        contains SAHEN_SETSUZOKU (pos_detail_of token)) &&
  negb (contains HIJIRITSU (pos_detail_of token)) &&
  match previous with
  | None => true
  | Some p =>
      negb (str_eqb (Token.pos p) SETTOUSHI) &&
      negb (contains SAHEN_SETSUZOKU (pos_detail_of p) &&
            (str_eqb (Token.pos token) DOUSHI &&
             str_eqb (Token.conjugated_type token) SAHEN_SURU))
  end.

(** The break decision as the specification words it: the base condition,
    narrowed by the suppression rules when [narrow] holds. *)
Definition break_rule (narrow : bool) (previous : option Token.t)
  (token : Token.t) : bool :=
  base_condition token &&
  (if narrow then suppression_rules previous token else true).

(** ** Notions the properties are stated with *)

Definition surfaces (ps : list Phrase.t) : str :=
  concat (map Phrase.surface ps).

Definition pronunciations (ps : list Phrase.t) : str :=
  concat (map Phrase.pronunciation ps).

Definition nonempty_surface (p : Phrase.t) : Prop := Phrase.surface p <> [].

(** A token without surface has no pronunciation either. *)
Definition silent_when_empty (token : Token.t) : Prop :=
  Token.surface_form token = [] -> Token.pronunciation token = [].

(** The accumulator carries no pronunciation while its surface is empty. *)
Definition accumulator_ok (p : Phrase.t) : Prop :=
  Phrase.surface p = [] -> Phrase.pronunciation p = [].

(** Order by key, and the elements that have a given key. *)
Definition le_by {A} (key : A -> nat) (a b : A) : Prop := key a <= key b.

Definition has_key {A} (key : A -> nat) (d : nat) (a : A) : bool :=
  key a =? d.

(** ** Inputs of the examples *)

(** A noun whose first detail field is the suffix marker. *)
Definition suffix_noun : Token.t :=
  Token.mk (lit "x") MEISHI SETSUBI STAR STAR STAR STAR (lit "x") [] [].

(** A token with a pronunciation and no surface. *)
Definition surfaceless_token : Token.t :=
  Token.mk [] MEISHI STAR STAR STAR STAR STAR [] (lit "a") (lit "a").

(** joshi (particle). *)
Definition JOSHI : str := [0x52a9; 0x8a5e]%N.

(** Scenario C: the adjective "hiroi" followed by the particle "na". *)
Definition scenario_c : list Token.t :=
  [Token.mk [0x5e83; 0x3044]%N KEIYOUSHI STAR STAR STAR STAR STAR
     [0x5e83; 0x3044]%N (lit "hiroi") (lit "hiroi");
   Token.mk [0x306a]%N JOSHI STAR STAR STAR STAR STAR
     [0x306a]%N (lit "na") (lit "na")].

(** [match_closest] of the specification: the first element of the
    ranking. *)
Definition match_closest (query : Phrase.t) (candidates : list WordEntry.t)
  : result WordEntry.t :=
  getitem (sort_by_distance query candidates) 0.

(** A stand-in for the tagger: one output line per character of the text,
    a noun for a capital letter and an unknown part of speech otherwise,
    the character itself as pronunciation; then the end marker. *)
Definition toy_line (c : N) : str :=
  [c; TAB] ++ (if (65 <=? c)%N && (c <=? 90)%N then MEISHI else lit "N")
  ++ lit ",*,*,*,*,*,x,x," ++ [c; 0x0a]%N.

Definition toy_tagger (text : str) : str :=
  concat (map toy_line text) ++ lit "EOS" ++ [0x0a]%N.

(** A word list file of three lines, whatever the path. *)
Definition toy_file (filepath : str) : result str :=
  Ok (lit "umi" ++ [0x0a]%N ++ lit "sora" ++ [0x0a]%N ++ lit "yama"
      ++ [0x0a]%N).

Definition toy_wordlist : list WordEntry.t :=
  [WordEntry.mk 0 (lit "umi") (lit "umi");
   WordEntry.mk 1 (lit "sora") (lit "sora");
   WordEntry.mk 2 (lit "yama") (lit "yama")].

(** A heap with the three dicts and the list that refers to them. *)
Definition toy_heap : Heap.t := Heap.mk toy_wordlist [[0; 1; 2]].

(** ** Notions of the further properties *)

(** Characters a field of a tagger line cannot hold: the line was cut at
    line breaks, then at tabs, then at commas. *)
Definition surface_char (c : N) : Prop :=
  c <> TAB /\ is_linebreak c = false.

Definition field_char (c : N) : Prop :=
  c <> COMMA /\ c <> TAB /\ is_linebreak c = false.

(** Every field of the token is made of the characters its place in the
    line allows; the basic form is a field or the surface form. *)
Definition clean_token (token : Token.t) : Prop :=
  Forall surface_char (Token.surface_form token) /\
  Forall surface_char (Token.basic_form token) /\
  Forall (Forall field_char)
    [Token.pos token; Token.pos_detail_1 token; Token.pos_detail_2 token;
     Token.pos_detail_3 token; Token.conjugated_type token;
     Token.conjugated_form token; Token.reading token;
     Token.pronunciation token].

(** The phrase a block of consecutive tokens makes. *)
Definition phrase_of_tokens (block : list Token.t) : Phrase.t :=
  Phrase.mk (concat (map Token.surface_form block))
            (concat (map Token.pronunciation block)).

Definition has_surface (block : list Token.t) : bool :=
  truthy (concat (map Token.surface_form block)).

(** The blocks the break decisions cut the tokens into: [current] is the
    block being filled, [previous] the token before [tokens]. *)
Fixpoint blocks_from (flag : bool) (previous : option Token.t)
  (current : list Token.t) (tokens : list Token.t) : list (list Token.t) :=
  match tokens with
  | [] => [current]
  | token :: rest =>
      if should_break flag previous token
      then current :: blocks_from flag (Some token) [token] rest
      else blocks_from flag (Some token) (current ++ [token]) rest
  end.

(** A token written as a line of tagger output: the surface form, a tab,
    the nine fields separated by commas. *)
Definition line_of_token (token : Token.t) : str :=
  Token.surface_form token ++ [TAB] ++
  join [COMMA]
    [Token.pos token; Token.pos_detail_1 token; Token.pos_detail_2 token;
     Token.pos_detail_3 token; Token.conjugated_type token;
     Token.conjugated_form token; Token.basic_form token;
     Token.reading token; Token.pronunciation token].

(** The three detail fields of a token. *)
Definition details (token : Token.t) : list str :=
  [Token.pos_detail_1 token; Token.pos_detail_2 token;
   Token.pos_detail_3 token].

(** 1 for a non-empty string, 0 for the empty one. *)
Definition weight (s : str) : nat := if truthy s then 1 else 0.

(** The list [split_text_into_phrases] returns, as references into the
    store. *)
Definition segmented_refs (tokens : list Token.t) (flag : bool)
  : list Store.addr :=
  let vars := fold_left (loop_body flag) tokens loop_init in
  append_current (phrases vars) (segmented_text vars) (current_phrase vars).

(** The references of [segmented_text] are in order of creation and older
    than [current_phrase]. *)
Definition refs_in_order (vars : loop_vars) : Prop :=
  StronglySorted lt (segmented_text vars) /\
  Forall (fun a => a < current_phrase vars) (segmented_text vars) /\
  S (current_phrase vars) = length (phrases vars).

(** * Properties *)

(** ** Tokenizer records *)

Lemma split_cons (s : str) (sep : N) :
  exists f fs, split s sep = f :: fs.
Proof.
  induction s as [|c s IH]; simpl.
  - now exists [], [].
  - destruct (N.eqb c sep).
    + now exists [], (split s sep).
    + destruct IH as (f & fs & ->). now exists (c :: f), fs.
Qed.

Lemma split_two (s : str) (sep : N) :
  has_char sep s = true -> exists a b rest, split s sep = a :: b :: rest.
Proof.
  induction s as [|c s IH]; simpl; [discriminate|].
  rewrite N.eqb_sym.
  destruct (N.eqb c sep); simpl.
  - intros _. destruct (split_cons s sep) as (f & fs & ->).
    now exists [], f, fs.
  - intros H. destruct (IH H) as (a & b & rest & ->).
    now exists (c :: a), b, rest.
Qed.

Lemma make_token_defaults (word_surface : str) (f : str) (fs : list str) :
  make_token word_surface (f :: fs)
  = Ok (token_with_defaults word_surface (f :: fs)).
Proof.
  destruct fs as [|f1 [|f2 [|f3 [|f4 [|f5 [|f6 [|f7 [|f8 fs]]]]]]]];
    reflexivity.
Qed.

Lemma token_with_defaults_firstn (surface : str) (fields : list str) :
  token_with_defaults surface (firstn 9 fields)
  = token_with_defaults surface fields.
Proof.
  destruct fields as [|f0 [|f1 [|f2 [|f3 [|f4 [|f5 [|f6 [|f7 [|f8 fs]]]]]]]]];
    reflexivity.
Qed.

Lemma token_of_line_tokens (line : str) :
  token_of_line line
  = Ok (match tokens_of_line line with [] => None | t :: _ => Some t end).
Proof.
  unfold token_of_line, tokens_of_line.
  destruct (has_char TAB line) eqn:Htab; simpl; [|reflexivity].
  destruct (split_two _ _ Htab) as (a & b & rest & ->); simpl.
  destruct (split_cons b COMMA) as (f & fs & ->).
  now rewrite make_token_defaults.
Qed.

Lemma tokens_of_line_tab (line : str) :
  has_char TAB line = true ->
  tokens_of_line line
  = [token_with_defaults (nth 0 (split line TAB) [])
       (split (nth 1 (split line TAB) []) COMMA)].
Proof. unfold tokens_of_line. now intros ->. Qed.

Lemma tokenize_loop_tokens (lines : list str) (acc : list Token.t) :
  tokenize_loop lines acc = Ok (acc ++ tokens_of_lines lines).
Proof.
  revert acc. induction lines as [|line lines IH]; intros acc; simpl.
  - now rewrite app_nil_r.
  - rewrite token_of_line_tokens; simpl.
    unfold tokens_of_line.
    destruct (has_char TAB line); simpl; rewrite IH.
    + now rewrite <- app_assoc.
    + reflexivity.
Qed.

(** [tokenize] never raises: it returns the tokens of the tagger's lines,
    the last line left out. *)
Lemma tokenize_tokens (mecab_parse : str -> str) (text : str) :
  tokenize mecab_parse text
  = Ok (tokens_of_lines (drop_last (splitlines (mecab_parse text)))).
Proof. unfold tokenize. now rewrite tokenize_loop_tokens. Qed.

(** C8. A tagger line with a tab yields a token without an exception,
    whatever the number of comma-separated fields after the tab; the token
    is the record read with the documented defaults (["*"] for the three
    details and the two conjugation fields, the surface form for the basic
    form, the empty string for reading and pronunciation), and it depends
    on the first nine fields only. *)
Theorem tokenize_missing_fields_default (line : str)
  (Htab : has_char TAB line = true) :
  let parts := split line TAB in
  let word_surface := nth 0 parts [] in
  let pos_info := split (nth 1 parts []) COMMA in
  let n := length pos_info in
  exists token,
    token_of_line line = Ok (Some token) /\
    token = token_with_defaults word_surface (firstn 9 pos_info) /\
    Token.surface_form token = word_surface /\
    (n <= 1 -> Token.pos_detail_1 token = STAR) /\
    (n <= 2 -> Token.pos_detail_2 token = STAR) /\
    (n <= 3 -> Token.pos_detail_3 token = STAR) /\
    (n <= 4 -> Token.conjugated_type token = STAR) /\
    (n <= 5 -> Token.conjugated_form token = STAR) /\
    (n <= 6 -> Token.basic_form token = word_surface) /\
    (n <= 7 -> Token.reading token = []) /\
    (n <= 8 -> Token.pronunciation token = []).
Proof.
  intros parts word_surface pos_info n.
  exists (token_with_defaults word_surface pos_info).
  split.
  { rewrite token_of_line_tokens, tokens_of_line_tab by assumption.
    reflexivity. }
  split; [now rewrite token_with_defaults_firstn|].
  split; [reflexivity|].
  simpl. repeat split; intros Hn; apply nth_overflow; exact Hn.
Qed.

(** A record with three fields after the tab: the five fields it lacks
    take their defaults. *)
Lemma tokenize_missing_fields_default_witness :
  exists token,
    token_of_line (lit "ab" ++ [TAB] ++ lit "N,x,y") = Ok (Some token) /\
    Token.pos_detail_2 token = lit "y" /\
    Token.pos_detail_3 token = STAR /\
    Token.basic_form token = lit "ab" /\
    Token.pronunciation token = [].
Proof.
  destruct (@tokenize_missing_fields_default
              (lit "ab" ++ [TAB] ++ lit "N,x,y") eq_refl)
    as (token & Htok & Heq & _ & _ & _ & H3 & _ & _ & H6 & _ & H8).
  exists token.
  split; [exact Htok|].
  split; [rewrite Heq; reflexivity|].
  split; [apply H3; vm_compute; lia|].
  split; [apply H6; vm_compute; lia|].
  apply H8; vm_compute; lia.
Defined.

(** ** The break decision *)

Lemma andb_negb_and (a b c d : bool) :
  a && negb (b && c && d) = a && negb (b && (c && d)).
Proof. now rewrite andb_assoc. Qed.

(** The code's decision is the specification's rule with the flag
    negated. *)
Lemma should_break_break_rule (flag : bool) (previous : option Token.t)
  (token : Token.t) :
  should_break flag previous token = break_rule (negb flag) previous token.
Proof.
  unfold should_break, break_rule, base_condition, suppression_rules.
  destruct flag; simpl.
  - now rewrite andb_true_r.
  - destruct previous as [p|].
    + rewrite andb_negb_and, <- !andb_assoc. reflexivity.
    + now rewrite andb_true_r, <- !andb_assoc.
Qed.

(** C1, as the claim states it, fails: with the flag true the code breaks
    before a suffix noun, which the suppression rules exclude. *)
Lemma should_break_flag_true_not_narrowed :
  ~ (forall flag previous token,
       should_break flag previous token = break_rule flag previous token).
Proof.
  intros H. specialize (H true None suffix_noun).
  vm_compute in H. discriminate H.
Qed.

(** C1, amended. The flag of the code is
    [consider_non_independent_nouns_as_breaks]: when it is false the base
    condition is narrowed by the conjunction of the suppression rules, and
    when it is true (the default) the base condition alone decides. *)
Theorem should_break_narrowed_iff_flag_false (previous : option Token.t)
  (token : Token.t) :
  should_break false previous token
  = base_condition token && suppression_rules previous token /\
  should_break true previous token = base_condition token.
Proof.
  rewrite !should_break_break_rule. unfold break_rule; simpl.
  now rewrite andb_true_r.
Qed.

(** ** The store of phrase dicts *)

Module StoreFacts.
Import Store.

Lemma update_length (h : t) (a : addr) (f : Phrase.t -> Phrase.t) :
  length (update h a f) = length h.
Proof.
  revert a. induction h as [|p h IH]; intros [|a]; simpl; auto.
Qed.

Lemma get_update_same (h : t) (a : addr) (f : Phrase.t -> Phrase.t) :
  a < length h -> get (update h a f) a = f (get h a).
Proof.
  revert a. induction h as [|p h IH]; intros [|a]; simpl; try lia; auto.
  intros Ha. apply IH. lia.
Qed.

Lemma get_update_other (h : t) (a b : addr) (f : Phrase.t -> Phrase.t) :
  a <> b -> get (update h a f) b = get h b.
Proof.
  revert a b.
  induction h as [|p h IH]; intros [|a] [|b] Hab; simpl; try easy.
  apply IH. lia.
Qed.

Lemma get_alloc_old (h : t) (p : Phrase.t) (a : addr) :
  a < length h -> get (fst (alloc h p)) a = get h a.
Proof. intros Ha. unfold get; simpl. now apply app_nth1. Qed.

Lemma get_alloc_new (h : t) (p : Phrase.t) :
  get (fst (alloc h p)) (snd (alloc h p)) = p.
Proof. unfold get; simpl. apply nth_middle. Qed.

Lemma map_get_update (h : t) (c : addr) (f : Phrase.t -> Phrase.t)
  (l : list addr) :
  Forall (fun a => a < c) l -> map (get (update h c f)) l = map (get h) l.
Proof.
  intros Hl. apply map_ext_in. intros a Ha.
  rewrite Forall_forall in Hl. specialize (Hl a Ha).
  apply get_update_other. lia.
Qed.

Lemma map_get_alloc (h : t) (p : Phrase.t) (l : list addr) :
  Forall (fun a => a < length h) l ->
  map (get (fst (alloc h p))) l = map (get h) l.
Proof.
  intros Hl. apply map_ext_in. intros a Ha.
  rewrite Forall_forall in Hl. now apply get_alloc_old, Hl.
Qed.

End StoreFacts.

(** ** Segmentation *)

Section Segmentation.

Variable flag : bool.

Lemma append_current_emit (h : Store.t) (segmented : list Store.addr)
  (current : Store.addr) :
  map (Store.get h) (append_current h segmented current)
  = emit (map (Store.get h) segmented) (Store.get h current).
Proof.
  unfold append_current, emit.
  destruct (truthy (Phrase.surface (Store.get h current))).
  - now rewrite map_app.
  - reflexivity.
Qed.

Lemma append_current_bound (h : Store.t) (segmented : list Store.addr)
  (current : Store.addr) :
  Forall (fun a => a < current) segmented ->
  Forall (fun a => a < S current) (append_current h segmented current).
Proof.
  intros Hseg. unfold append_current.
  assert (Forall (fun a => a < S current) segmented)
    by (eapply Forall_impl; [|exact Hseg]; simpl; lia).
  destruct (truthy _); [|assumption].
  apply Forall_app; split; [assumption|].
  constructor; [lia|constructor].
Qed.

(** An iteration of the loop is a step of the machine. *)
Lemma loop_body_step (vars : loop_vars) (m : machine) (token : Token.t) :
  holds vars m -> holds (loop_body flag vars token) (machine_step flag m token).
Proof.
  destruct vars as [h seg cur prev], m as [out acc prev'].
  unfold holds; simpl. intros (Hlen & Hlt & Hmap & Hget & Hprev). subst.
  unfold loop_body, machine_step; simpl.
  destruct (should_break flag prev' token); simpl.
  - pose proof (append_current_bound h Hlt) as Hlt'.
    rewrite Hlen in Hlt'.
    repeat split.
    + rewrite !StoreFacts.update_length, length_app; simpl. lia.
    + exact Hlt'.
    + rewrite !StoreFacts.map_get_update by exact Hlt'.
      change (h ++ [empty_phrase]) with (fst (Store.alloc h empty_phrase)).
      rewrite StoreFacts.map_get_alloc by exact Hlt'.
      apply append_current_emit.
    + rewrite !StoreFacts.get_update_same
        by (rewrite ?StoreFacts.update_length, length_app; simpl; lia).
      change (h ++ [empty_phrase]) with (fst (Store.alloc h empty_phrase)).
      change (length h) with (snd (Store.alloc h empty_phrase)).
      now rewrite StoreFacts.get_alloc_new.
  - repeat split.
    + now rewrite !StoreFacts.update_length.
    + exact Hlt.
    + now rewrite !StoreFacts.map_get_update by exact Hlt.
    + rewrite !StoreFacts.get_update_same
        by (rewrite ?StoreFacts.update_length; lia).
      reflexivity.
Qed.

Lemma loop_init_holds : holds loop_init machine_init.
Proof. unfold holds; simpl. repeat split; constructor. Qed.

Lemma loop_fold_holds (tokens : list Token.t) (vars : loop_vars)
  (m : machine) :
  holds vars m ->
  holds (fold_left (loop_body flag) tokens vars)
        (fold_left (machine_step flag) tokens m).
Proof.
  revert vars m. induction tokens as [|token tokens IH]; intros vars m H.
  - exact H.
  - simpl. apply IH, loop_body_step, H.
Qed.

(** The list the function returns, read through the store, is the output of
    the machine: the dicts in the list are not written after their
    append. *)
Lemma segment_refines (tokens : list Token.t) :
  segment tokens flag = run_machine tokens flag.
Proof.
  unfold segment, run_machine.
  destruct (loop_fold_holds tokens loop_init_holds)
    as (_ & _ & Hmap & Hget & _).
  rewrite append_current_emit. now rewrite Hmap, Hget.
Qed.

Lemma surfaces_emit (out : list Phrase.t) (acc : Phrase.t) :
  surfaces (emit out acc) = surfaces out ++ Phrase.surface acc.
Proof.
  unfold emit, surfaces.
  destruct (Phrase.surface acc) eqn:E; simpl.
  - now rewrite app_nil_r.
  - rewrite map_app, concat_app; simpl. now rewrite E, app_nil_r.
Qed.

Lemma machine_step_surface (m : machine) (token : Token.t) :
  let m' := machine_step flag m token in
  surfaces (emitted m') ++ Phrase.surface (accumulator m')
  = (surfaces (emitted m) ++ Phrase.surface (accumulator m))
    ++ Token.surface_form token.
Proof.
  unfold machine_step.
  destruct (should_break flag (previous m) token); simpl.
  - now rewrite surfaces_emit.
  - now rewrite app_assoc.
Qed.

Lemma machine_fold_surface (tokens : list Token.t) (m : machine) :
  let m' := fold_left (machine_step flag) tokens m in
  surfaces (emitted m') ++ Phrase.surface (accumulator m')
  = (surfaces (emitted m) ++ Phrase.surface (accumulator m))
    ++ concat (map Token.surface_form tokens).
Proof.
  revert m. induction tokens as [|token tokens IH]; intros m; simpl.
  - now rewrite app_nil_r.
  - rewrite IH, machine_step_surface. now rewrite <- app_assoc.
Qed.

Lemma run_machine_surface (tokens : list Token.t) :
  surfaces (run_machine tokens flag)
  = concat (map Token.surface_form tokens).
Proof.
  unfold run_machine. rewrite surfaces_emit.
  apply (machine_fold_surface tokens machine_init).
Qed.

Lemma emit_nonempty (out : list Phrase.t) (acc : Phrase.t) :
  Forall nonempty_surface out -> Forall nonempty_surface (emit out acc).
Proof.
  intros Hout. unfold emit.
  destruct (Phrase.surface acc) eqn:E; simpl; [exact Hout|].
  apply Forall_app; split; [exact Hout|].
  constructor; [|constructor].
  unfold nonempty_surface. now rewrite E.
Qed.

Lemma machine_fold_nonempty (tokens : list Token.t) (m : machine) :
  Forall nonempty_surface (emitted m) ->
  Forall nonempty_surface (emitted (fold_left (machine_step flag) tokens m)).
Proof.
  revert m. induction tokens as [|token tokens IH]; intros m Hm; simpl.
  - exact Hm.
  - apply IH. unfold machine_step.
    destruct (should_break flag (previous m) token); simpl.
    + now apply emit_nonempty.
    + exact Hm.
Qed.

Lemma pronunciations_emit (out : list Phrase.t) (acc : Phrase.t) :
  accumulator_ok acc ->
  pronunciations (emit out acc) = pronunciations out ++ Phrase.pronunciation acc.
Proof.
  unfold emit, pronunciations, accumulator_ok. intros Hacc.
  destruct (Phrase.surface acc) eqn:E; simpl.
  - now rewrite Hacc, app_nil_r.
  - rewrite map_app, concat_app; simpl. now rewrite app_nil_r.
Qed.

Lemma machine_step_pronunciation (m : machine) (token : Token.t) :
  accumulator_ok (accumulator m) ->
  silent_when_empty token ->
  let m' := machine_step flag m token in
  accumulator_ok (accumulator m') /\
  pronunciations (emitted m') ++ Phrase.pronunciation (accumulator m')
  = (pronunciations (emitted m) ++ Phrase.pronunciation (accumulator m))
    ++ Token.pronunciation token.
Proof.
  unfold machine_step, accumulator_ok, silent_when_empty. intros Hacc Htok.
  destruct (should_break flag (previous m) token); simpl.
  - split; [exact Htok|]. now rewrite pronunciations_emit.
  - split.
    + intros H. apply app_eq_nil in H as [H1 H2].
      now rewrite Hacc, Htok.
    + now rewrite app_assoc.
Qed.

Lemma machine_fold_pronunciation (tokens : list Token.t) (m : machine) :
  accumulator_ok (accumulator m) ->
  Forall silent_when_empty tokens ->
  let m' := fold_left (machine_step flag) tokens m in
  accumulator_ok (accumulator m') /\
  pronunciations (emitted m') ++ Phrase.pronunciation (accumulator m')
  = (pronunciations (emitted m) ++ Phrase.pronunciation (accumulator m))
    ++ concat (map Token.pronunciation tokens).
Proof.
  revert m.
  induction tokens as [|token tokens IH]; intros m Hm Htoks; simpl.
  - split; [exact Hm|]. now rewrite app_nil_r.
  - inversion Htoks as [|? ? Htok Hrest]; subst.
    destruct (machine_step_pronunciation m Hm Htok) as [Hacc Heq].
    destruct (IH _ Hacc Hrest) as [Hacc' Heq'].
    split; [exact Hacc'|].
    rewrite Heq', Heq. now rewrite <- app_assoc.
Qed.

Lemma run_machine_pronunciation (tokens : list Token.t) :
  Forall silent_when_empty tokens ->
  pronunciations (run_machine tokens flag)
  = concat (map Token.pronunciation tokens).
Proof.
  intros Htoks. unfold run_machine.
  assert (Hinit : accumulator_ok (accumulator machine_init))
    by (intros _; reflexivity).
  destruct (machine_fold_pronunciation machine_init Hinit Htoks)
    as [Hacc Heq].
  rewrite pronunciations_emit by exact Hacc. exact Heq.
Qed.

End Segmentation.

(** C2. The surfaces of the phrases, concatenated in order, are the surface
    forms of the tokens, concatenated in order. *)
Theorem segment_preserves_surface (tokens : list Token.t) (flag : bool) :
  concat (map Phrase.surface (segment tokens flag))
  = concat (map Token.surface_form tokens).
Proof.
  rewrite segment_refines. apply run_machine_surface.
Qed.

(** C5. No phrase of the output has an empty surface. *)
Theorem segment_no_empty_surface (tokens : list Token.t) (flag : bool) :
  Forall (fun phrase => Phrase.surface phrase <> []) (segment tokens flag).
Proof.
  rewrite segment_refines. unfold run_machine.
  apply emit_nonempty, machine_fold_nonempty. constructor.
Qed.

(** C10, as the claim states it, fails: the pronunciation of a token
    without surface is dropped with the accumulator whose surface is
    empty. *)
Lemma segment_drops_pronunciation :
  ~ (forall tokens flag,
       concat (map Phrase.pronunciation (segment tokens flag))
       = concat (map Token.pronunciation tokens)).
Proof.
  intros H. specialize (H [surfaceless_token] true).
  vm_compute in H. discriminate H.
Qed.

(** C10, amended. When every token without surface has no pronunciation,
    the pronunciations of the phrases, concatenated in order, are the
    pronunciations of the tokens, concatenated in order. *)
Theorem segment_preserves_pronunciation (tokens : list Token.t)
  (flag : bool)
  (Hsilent : Forall (fun token => Token.surface_form token = [] ->
                                  Token.pronunciation token = []) tokens) :
  concat (map Phrase.pronunciation (segment tokens flag))
  = concat (map Token.pronunciation tokens).
Proof.
  rewrite segment_refines. now apply run_machine_pronunciation.
Qed.

(** Scenario C of the specification: an adjective and the particle after
    it make one phrase. *)
Lemma segment_preserves_pronunciation_witness :
  concat (map Phrase.pronunciation (segment scenario_c true))
  = concat (map Token.pronunciation scenario_c).
Proof.
  apply segment_preserves_pronunciation.
  repeat constructor; intros H; vm_compute in H; discriminate H.
Defined.

Example scenario_c_one_phrase :
  segment scenario_c true
  = [Phrase.mk [0x5e83; 0x3044; 0x306a]%N (lit "hiroina")].
Proof. reflexivity. Qed.

(** The token of [segment_drops_pronunciation] is one the tokenizer
    builds, from a tagger line that starts with the tab. *)
Example surfaceless_token_of_line :
  tokens_of_line (TAB :: [0x540d; 0x8a5e; 0x2c]%N ++ lit "*,*,*,*,*,,a,a")
  = [surfaceless_token].
Proof. reflexivity. Qed.

(** ** Stable sorting by a key *)

Section Sorting.

Context {A : Type} (key : A -> nat).

Lemma insert_by_perm (x : A) (l : list A) :
  Permutation (x :: l) (insert_by key x l).
Proof.
  induction l as [|y l IH]; simpl.
  - reflexivity.
  - destruct (key x <=? key y).
    + reflexivity.
    + rewrite perm_swap. now constructor.
Qed.

Lemma py_sorted_perm (l : list A) : Permutation l (py_sorted key l).
Proof.
  induction l as [|x l IH]; simpl.
  - constructor.
  - rewrite <- insert_by_perm. now constructor.
Qed.

Lemma insert_by_sorted (x : A) (l : list A) :
  StronglySorted (le_by key) l -> StronglySorted (le_by key) (insert_by key x l).
Proof.
  induction 1 as [|y l Hsorted IH Hall]; simpl.
  - repeat constructor.
  - destruct (Nat.leb_spec (key x) (key y)) as [Hle|Hgt].
    + constructor.
      * now constructor.
      * constructor; [exact Hle|].
        eapply Forall_impl; [|exact Hall].
        unfold le_by. intros a Ha. lia.
    + constructor; [exact IH|].
      rewrite <- insert_by_perm.
      constructor; [unfold le_by; lia|exact Hall].
Qed.

Lemma py_sorted_sorted (l : list A) :
  StronglySorted (le_by key) (py_sorted key l).
Proof.
  induction l as [|x l IH]; simpl.
  - constructor.
  - now apply insert_by_sorted.
Qed.

Lemma insert_by_filter (d : nat) (x : A) (l : list A) :
  filter (has_key key d) (insert_by key x l)
  = filter (has_key key d) (x :: l).
Proof.
  induction l as [|y l IH]; simpl.
  - reflexivity.
  - destruct (Nat.leb_spec (key x) (key y)) as [Hle|Hgt]; [reflexivity|].
    simpl in *. rewrite IH. unfold has_key.
    destruct (Nat.eqb_spec (key x) d) as [Hx|Hx];
      destruct (Nat.eqb_spec (key y) d) as [Hy|Hy]; try reflexivity.
    lia.
Qed.

(** Stability: the elements with a given key come out in the order they
    came in. *)
Lemma py_sorted_stable (d : nat) (l : list A) :
  filter (has_key key d) (py_sorted key l) = filter (has_key key d) l.
Proof.
  induction l as [|x l IH]; simpl.
  - reflexivity.
  - rewrite insert_by_filter. simpl. now rewrite IH.
Qed.

Lemma filter_head_in (d : nat) (x : A) (l m : list A) :
  filter (has_key key d) l = x :: m -> In x l /\ key x = d.
Proof.
  intros H.
  assert (Hin : In x (filter (has_key key d) l)) by (rewrite H; now left).
  apply filter_In in Hin as [Hin Hk].
  split; [exact Hin|]. now apply Nat.eqb_eq in Hk.
Qed.

Lemma filter_own_key (a : A) (l : list A) :
  filter (has_key key (key a)) (a :: l)
  = a :: filter (has_key key (key a)) l.
Proof. simpl. unfold has_key at 1. now rewrite Nat.eqb_refl. Qed.

Lemma head_in_other (a : A) (l1 l2 : list A) :
  (forall d, filter (has_key key d) (a :: l1) = filter (has_key key d) l2) ->
  In a l2.
Proof.
  intros Hf. specialize (Hf (key a)). rewrite filter_own_key in Hf.
  symmetry in Hf. now apply filter_head_in in Hf.
Qed.

(** Two sorted lists with the same elements in the same order under each
    key are equal: a stable sort has one possible output. *)
Lemma stable_sorted_unique (l1 l2 : list A) :
  StronglySorted (le_by key) l1 ->
  StronglySorted (le_by key) l2 ->
  (forall d, filter (has_key key d) l1 = filter (has_key key d) l2) ->
  l1 = l2.
Proof.
  intros H1. revert l2.
  induction H1 as [|a l1 Hs1 IH Ha]; intros l2 H2 Hf.
  - destruct l2 as [|b l2]; [reflexivity|].
    specialize (Hf (key b)). rewrite filter_own_key in Hf. discriminate Hf.
  - pose proof (@head_in_other a l1 l2 Hf) as Ia.
    destruct H2 as [|b l2 Hs2 Hb]; [destruct Ia|].
    assert (Ib : In b (a :: l1))
      by (apply (@head_in_other b l2 (a :: l1)); intros d; symmetry; apply Hf).
    assert (Hab : key a = key b).
    { rewrite Forall_forall in Ha, Hb. unfold le_by in Ha, Hb.
      destruct Ia as [<-|Ia]; [reflexivity|].
      destruct Ib as [<-|Ib]; [reflexivity|].
      specialize (Ha _ Ib). specialize (Hb _ Ia). lia. }
    assert (Heq : a = b).
    { specialize (Hf (key a)). rewrite filter_own_key in Hf.
      rewrite Hab, filter_own_key in Hf. now injection Hf. }
    subst b. f_equal. apply IH; [exact Hs2|].
    intros d. specialize (Hf d). simpl in Hf.
    destruct (has_key key d a); [now injection Hf|exact Hf].
Qed.

(** Whatever stable sort [sorted] runs, it returns the list of
    [py_sorted]. *)
Lemma py_sorted_unique (l sorted : list A) :
  StronglySorted (le_by key) sorted ->
  (forall d, filter (has_key key d) sorted = filter (has_key key d) l) ->
  sorted = py_sorted key l.
Proof.
  intros Hsorted Hstable.
  apply stable_sorted_unique; [exact Hsorted|apply py_sorted_sorted|].
  intros d. now rewrite Hstable, py_sorted_stable.
Qed.

End Sorting.

(** ** Ranking *)

Lemma insert_by_map {A B} (key : A -> nat) (f : B -> A) (x : B)
  (l : list B) :
  insert_by key (f x) (map f l) = map f (insert_by (fun b => key (f b)) x l).
Proof.
  induction l as [|y l IH]; simpl.
  - reflexivity.
  - destruct (key (f x) <=? key (f y)); simpl; [reflexivity|].
    now rewrite IH.
Qed.

Lemma py_sorted_map {A B} (key : A -> nat) (f : B -> A) (l : list B) :
  py_sorted key (map f l) = map f (py_sorted (fun b => key (f b)) l).
Proof.
  induction l as [|x l IH]; simpl.
  - reflexivity.
  - now rewrite IH, insert_by_map.
Qed.

Lemma ed_eval_same (a : str) : ed_eval a a = 0.
Proof.
  induction a as [|x a IH]; simpl; [reflexivity|].
  now rewrite N.eqb_refl.
Qed.

(** The three lines of [sort_by_distance] sort the word list by the
    distance to the target. *)
Lemma sort_by_distance_py_sorted {A B} `{Pronounced A} `{Pronounced B}
  (target_word : A) (wordlist : list B) :
  sort_by_distance target_word wordlist
  = py_sorted (calculate_distance target_word) wordlist.
Proof.
  unfold sort_by_distance.
  rewrite (py_sorted_map snd
             (fun word => (word, calculate_distance target_word word))).
  rewrite map_map; simpl. apply map_id.
Qed.

Lemma sort_by_distance_perm {A B} `{Pronounced A} `{Pronounced B}
  (target_word : A) (wordlist : list B) :
  Permutation wordlist (sort_by_distance target_word wordlist).
Proof. rewrite sort_by_distance_py_sorted. apply py_sorted_perm. Qed.

(** Sorting the references is sorting the dicts they refer to. *)
Lemma sort_by_distance_refs (h : Heap.t) (target_word : Phrase.t)
  (refs : list Heap.addr) :
  map (Heap.dict h)
    (@sort_by_distance _ _ _ (Heap.pronounced h) target_word refs)
  = sort_by_distance target_word (map (Heap.dict h) refs).
Proof.
  rewrite !sort_by_distance_py_sorted.
  rewrite (py_sorted_map (calculate_distance target_word) (Heap.dict h)).
  reflexivity.
Qed.

(** C3. The ranking is in non-decreasing order of the distance to the
    query, and the candidates at any one distance are in the order they
    have in the input. *)
Theorem sort_by_distance_sorted_stable (query : Phrase.t)
  (candidates : list WordEntry.t) :
  StronglySorted
    (fun a b => calculate_distance query a <= calculate_distance query b)
    (sort_by_distance query candidates) /\
  forall d : nat,
    filter (fun c => calculate_distance query c =? d)
      (sort_by_distance query candidates)
    = filter (fun c => calculate_distance query c =? d) candidates.
Proof.
  rewrite sort_by_distance_py_sorted. split.
  - apply (py_sorted_sorted (calculate_distance query)).
  - intros d. apply (py_sorted_stable (calculate_distance query)).
Qed.

(** C9. A call on the list object at [wordlist] returns a list of the same
    references, rearranged; the dicts they refer to are those of the
    input, rearranged; and the call leaves the input list and every dict
    as they were. *)
Theorem sort_by_distance_permutes_and_preserves (h : Heap.t)
  (target_word : Phrase.t) (wordlist : Heap.addr)
  (Hvalid : wordlist < length (Heap.lists h)) :
  let h' := fst (sort_by_distance_in h target_word wordlist) in
  let sorted_wordlist := snd (sort_by_distance_in h target_word wordlist) in
  Permutation (Heap.list_at h wordlist) (Heap.list_at h' sorted_wordlist) /\
  map (Heap.dict h') (Heap.list_at h' sorted_wordlist)
  = sort_by_distance target_word
      (map (Heap.dict h) (Heap.list_at h wordlist)) /\
  Permutation (map (Heap.dict h) (Heap.list_at h wordlist))
              (map (Heap.dict h') (Heap.list_at h' sorted_wordlist)) /\
  Heap.list_at h' wordlist = Heap.list_at h wordlist /\
  Heap.dicts h' = Heap.dicts h.
Proof.
  unfold sort_by_distance_in, Heap.alloc_list; simpl.
  set (refs := Heap.list_at h wordlist).
  set (sorted := @sort_by_distance _ _ _ (Heap.pronounced h) target_word refs).
  assert (Hnew : Heap.list_at (Heap.mk (Heap.dicts h) (Heap.lists h ++ [sorted]))
                   (length (Heap.lists h)) = sorted)
    by (unfold Heap.list_at; simpl; apply nth_middle).
  assert (Hold : Heap.list_at (Heap.mk (Heap.dicts h) (Heap.lists h ++ [sorted]))
                   wordlist = refs)
    by (unfold Heap.list_at; simpl; now apply app_nth1).
  assert (Hvalues : map (Heap.dict h) sorted
                    = sort_by_distance target_word (map (Heap.dict h) refs))
    by apply sort_by_distance_refs.
  rewrite Hnew, Hold.
  change (Heap.dict (Heap.mk (Heap.dicts h) (Heap.lists h ++ [sorted])))
    with (Heap.dict h).
  repeat split.
  - apply (@sort_by_distance_perm _ _ _ (Heap.pronounced h)).
  - exact Hvalues.
  - rewrite Hvalues. apply sort_by_distance_perm.
Qed.

(** The three words ranked against "yama": the call returns the new list
    at address 1, and the list at address 0 is as it was. *)
Lemma sort_by_distance_permutes_and_preserves_witness :
  let call := sort_by_distance_in toy_heap (Phrase.mk (lit "yama") (lit "yama")) 0 in
  Permutation [0; 1; 2] (Heap.list_at (fst call) (snd call)) /\
  Heap.list_at (fst call) (snd call) = [2; 0; 1] /\
  Heap.list_at (fst call) 0 = [0; 1; 2].
Proof.
  destruct (@sort_by_distance_permutes_and_preserves toy_heap
              (Phrase.mk (lit "yama") (lit "yama")) 0 (le_n 1))
    as (Hperm & _ & _ & Hold & _).
  split; [exact Hperm|].
  split; [reflexivity|exact Hold].
Defined.

(** C4. With no candidate, taking the closest word raises: the subscript
    [sorted_words[0]] is out of range ([IndexError] is the exception the
    specification calls EmptyCandidateSet); the ranking itself returns the
    empty list. *)
Theorem empty_candidates (phrase : Phrase.t) :
  find_closest_word phrase [] = Raise IndexError /\
  match_closest phrase [] = Raise IndexError /\
  sort_by_distance phrase (@nil WordEntry.t) = [].
Proof. repeat split. Qed.

Lemma find_closest_word_match (phrase : Phrase.t)
  (wordlist : list WordEntry.t) :
  find_closest_word phrase wordlist
  = let* word := match_closest phrase wordlist in
    Ok (Closest.mk word phrase).
Proof. reflexivity. Qed.

(** With a candidate, the closest word is found: it is a candidate, and no
    candidate is nearer to the phrase. *)
Lemma match_closest_nearest (phrase : Phrase.t)
  (wordlist : list WordEntry.t) :
  wordlist <> [] ->
  exists word,
    match_closest phrase wordlist = Ok word /\
    In word wordlist /\
    forall c, In c wordlist ->
      calculate_distance phrase word <= calculate_distance phrase c.
Proof.
  intros Hne. unfold match_closest.
  pose proof (sort_by_distance_perm phrase wordlist) as Hperm.
  pose proof (py_sorted_sorted (calculate_distance phrase) wordlist)
    as Hsorted.
  rewrite <- sort_by_distance_py_sorted in Hsorted.
  destruct (sort_by_distance phrase wordlist) as [|word rest].
  - apply Permutation_sym, Permutation_nil in Hperm. contradiction.
  - exists word. split; [reflexivity|]. split.
    + eapply Permutation_in; [apply Permutation_sym, Hperm|now left].
    + intros c Hc. apply (Permutation_in _ Hperm) in Hc.
      inversion Hsorted as [|? ? _ Hall]; subst.
      destruct Hc as [<-|Hc]; [lia|].
      rewrite Forall_forall in Hall. now apply (Hall c).
Qed.

(** ** Loading the word list and matching a text *)

Lemma join_empty_concat (l : list str) : join [] l = concat l.
Proof.
  induction l as [|a l IH]; simpl; [reflexivity|].
  destruct l as [|b l]; [now rewrite app_nil_r|].
  now rewrite IH.
Qed.

Lemma concat_filter_truthy (l : list Token.t) :
  concat (map Token.pronunciation
            (filter (fun token => truthy (Token.pronunciation token)) l))
  = concat (map Token.pronunciation l).
Proof.
  induction l as [|t l IH]; simpl; [reflexivity|].
  destruct (Token.pronunciation t) eqn:E; simpl.
  - exact IH.
  - now rewrite E, IH.
Qed.

Lemma nth_error_enumerate_from {A} (l : list A) (k i : nat) (x : A) :
  nth_error l i = Some x ->
  nth_error (combine (seq k (length l)) l) i = Some (k + i, x).
Proof.
  revert k i. induction l as [|a l IH]; intros k [|i]; simpl; try easy.
  - intros [= ->]. now rewrite Nat.add_0_r.
  - intros H. rewrite (IH (S k) i H). f_equal. f_equal. lia.
Qed.

Section ProgramFacts.

Variable mecab_parse : str -> str.
Variable read_file : str -> result str.

Lemma get_pronunciation_tokens (text : str) :
  get_pronunciation mecab_parse text
  = Ok (pronunciation_of_text mecab_parse text).
Proof.
  unfold get_pronunciation, pronunciation_of_text.
  rewrite tokenize_tokens; simpl.
  now rewrite join_empty_concat, concat_filter_truthy.
Qed.

Lemma load_loop_entries (lines : list (nat * str))
  (wordlist : list WordEntry.t) :
  load_loop mecab_parse lines wordlist
  = Ok (wordlist
        ++ map (fun '(id, line) =>
                  WordEntry.mk id line
                    (pronunciation_of_text mecab_parse line)) lines).
Proof.
  revert wordlist.
  induction lines as [|[id line] lines IH]; intros wordlist; simpl.
  - now rewrite app_nil_r.
  - rewrite get_pronunciation_tokens; simpl.
    rewrite IH. now rewrite <- app_assoc.
Qed.

(** C6. The word list loaded from a file has one entry per line of the
    file, in the order of the lines: the entry of the line at position [i]
    (from 0) has [i] as id, the line as surface, and as pronunciation the
    concatenation of the pronunciations of the tokens of the whole line. *)
Theorem load_wordlist_entries (filepath content : str)
  (Hread : read_file filepath = Ok content) :
  let lines := splitlines content in
  exists wordlist,
    load_wordlist mecab_parse read_file filepath = Ok wordlist /\
    length wordlist = length lines /\
    forall i line, nth_error lines i = Some line ->
      exists tokens,
        tokenize mecab_parse line = Ok tokens /\
        nth_error wordlist i
        = Some (WordEntry.mk i line
                  (concat (map Token.pronunciation tokens))).
Proof.
  intros lines. unfold load_wordlist. rewrite Hread; simpl.
  rewrite load_loop_entries; simpl.
  eexists. split; [reflexivity|]. split.
  - unfold enumerate. now rewrite length_map, length_combine, length_seq,
      Nat.min_id.
  - intros i line Hline. eexists. split; [apply tokenize_tokens|].
    unfold enumerate. subst lines.
    rewrite nth_error_map, (nth_error_enumerate_from _ 0 _ Hline).
    reflexivity.
Qed.

Lemma find_closest_loop_app (phrases : list Phrase.t)
  (wordlist : list WordEntry.t) (acc : list Closest.t) :
  wordlist <> [] ->
  exists closest_words,
    find_closest_loop phrases wordlist acc = Ok (acc ++ closest_words) /\
    length closest_words = length phrases /\
    forall i phrase, nth_error phrases i = Some phrase ->
      exists word,
        match_closest phrase wordlist = Ok word /\
        nth_error closest_words i = Some (Closest.mk word phrase).
Proof.
  intros Hne. revert acc.
  induction phrases as [|phrase phrases IH]; intros acc; simpl.
  - exists []. rewrite app_nil_r. repeat split. now intros [|i].
  - destruct (match_closest_nearest phrase Hne) as (word & Hword & _).
    rewrite find_closest_word_match, Hword; simpl.
    destruct (IH (acc ++ [Closest.mk word phrase])) as (rest & Hloop & Hlen & Hnth).
    exists (Closest.mk word phrase :: rest).
    split; [now rewrite Hloop, <- app_assoc|].
    split; [simpl; now rewrite Hlen|].
    intros [|i] p; simpl.
    + intros [= <-]. now exists word.
    + apply Hnth.
Qed.

(** C7. With a non-empty word list, [find_closest_words] returns one pair
    per phrase of the segmented text, in the order of the phrases; the pair
    at position [i] is the phrase at position [i] and its closest word,
    the first of the ranking of the word list against that phrase alone,
    which no entry of the word list beats. *)
Theorem find_closest_words_pairs (text : str) (wordlist : list WordEntry.t)
  (Hne : wordlist <> []) :
  exists tokens closest_words,
    tokenize mecab_parse text = Ok tokens /\
    split_text_into_phrases mecab_parse text true
    = Ok (segment tokens true) /\
    find_closest_words mecab_parse text wordlist = Ok closest_words /\
    length closest_words = length (segment tokens true) /\
    forall i phrase, nth_error (segment tokens true) i = Some phrase ->
      exists word,
        match_closest phrase wordlist = Ok word /\
        nth_error closest_words i = Some (Closest.mk word phrase) /\
        In word wordlist /\
        forall c, In c wordlist ->
          calculate_distance phrase word <= calculate_distance phrase c.
Proof.
  unfold find_closest_words, split_text_into_phrases.
  rewrite tokenize_tokens; simpl.
  set (tokens := tokens_of_lines _).
  destruct (@find_closest_loop_app (segment tokens true) wordlist [] Hne)
    as (closest_words & Hloop & Hlen & Hnth).
  exists tokens, closest_words.
  repeat split; try assumption.
  intros i phrase Hphrase.
  destruct (Hnth i phrase Hphrase) as (word & Hword & Hpair).
  destruct (match_closest_nearest phrase Hne) as (word' & Hword' & Hin & Hmin).
  assert (word' = word) by congruence. subst word'.
  now exists word.
Qed.

(** With an empty word list the first phrase of the text already raises. *)
Lemma find_closest_words_empty (text : str) (tokens : list Token.t) :
  tokenize mecab_parse text = Ok tokens ->
  segment tokens true <> [] ->
  find_closest_words mecab_parse text [] = Raise IndexError.
Proof.
  intros Htok Hseg. unfold find_closest_words, split_text_into_phrases.
  rewrite Htok; simpl.
  destruct (segment tokens true); [contradiction|reflexivity].
Qed.

End ProgramFacts.

(** The three-line file read through the stand-in tagger. *)
Lemma load_wordlist_entries_witness :
  exists wordlist,
    load_wordlist toy_tagger toy_file (lit "sample_wordlist.csv")
    = Ok wordlist /\
    length wordlist = 3 /\
    nth_error wordlist 1 = Some (WordEntry.mk 1 (lit "sora") (lit "sora")).
Proof.
  destruct (@load_wordlist_entries toy_tagger toy_file
              (lit "sample_wordlist.csv") _ eq_refl)
    as (wordlist & Hload & Hlen & Hnth).
  exists wordlist.
  split; [exact Hload|]. split; [exact Hlen|].
  destruct (Hnth 1 (lit "sora") eq_refl) as (tokens & Htok & Hentry).
  vm_compute in Htok. injection Htok as <-. exact Hentry.
Defined.

(** A text of two phrases matched against the three words. *)
Lemma find_closest_words_pairs_witness :
  exists closest_words,
    find_closest_words toy_tagger (lit "UmiSoro") toy_wordlist
    = Ok closest_words /\
    length closest_words = 2 /\
    exists word,
      match_closest (Phrase.mk (lit "Soro") (lit "Soro")) toy_wordlist
      = Ok word /\
      nth_error closest_words 1
      = Some (Closest.mk word (Phrase.mk (lit "Soro") (lit "Soro"))).
Proof.
  assert (Hne : toy_wordlist <> []) by discriminate.
  destruct (@find_closest_words_pairs toy_tagger (lit "UmiSoro")
              toy_wordlist Hne)
    as (tokens & closest_words & Htok & _ & Hfind & Hlen & Hnth).
  vm_compute in Htok. injection Htok as <-.
  exists closest_words.
  split; [exact Hfind|]. split; [exact Hlen|].
  destruct (Hnth 1 (Phrase.mk (lit "Soro") (lit "Soro")) eq_refl)
    as (word & Hword & Hpair & _).
  now exists word.
Defined.

(** ** The scenarios of the specification *)

(** Scenario A: the query "umi" is matched with the entry "umi", at
    distance 0. *)
Example scenario_a :
  match_closest (Phrase.mk (lit "umi") (lit "umi")) toy_wordlist
  = Ok (WordEntry.mk 0 (lit "umi") (lit "umi")) /\
  calculate_distance (Phrase.mk (lit "umi") (lit "umi"))
    (WordEntry.mk 0 (lit "umi") (lit "umi")) = 0.
Proof. split; reflexivity. Qed.

(** Scenario B: of two entries pronounced "kawa", the one listed first
    comes first. *)
Example scenario_b :
  map WordEntry.id
    (sort_by_distance (Phrase.mk (lit "kawa") (lit "kawa"))
       [WordEntry.mk 0 (lit "a") (lit "yama");
        WordEntry.mk 2 (lit "b") (lit "kawa");
        WordEntry.mk 3 (lit "c") (lit "umi");
        WordEntry.mk 5 (lit "d") (lit "kawa")])
  = [2; 5; 0; 3].
Proof. reflexivity. Qed.

(** The whole program on the stand-in tagger. *)
Example find_closest_words_run :
  find_closest_words toy_tagger (lit "UmiSoro") toy_wordlist
  = Ok [Closest.mk (WordEntry.mk 0 (lit "umi") (lit "umi"))
          (Phrase.mk (lit "Umi") (lit "Umi"));
        Closest.mk (WordEntry.mk 1 (lit "sora") (lit "sora"))
          (Phrase.mk (lit "Soro") (lit "Soro"))].
Proof. reflexivity. Qed.

Example load_wordlist_run :
  load_wordlist toy_tagger toy_file (lit "sample_wordlist.csv")
  = Ok toy_wordlist.
Proof. reflexivity. Qed.

(** [sorted] of Python on examples, and the built-ins on strings. *)
Example py_sorted_run :
  py_sorted snd [(1, 3); (2, 1); (3, 3); (4, 0); (5, 1)]
  = [(4, 0); (2, 1); (5, 1); (1, 3); (3, 3)].
Proof. reflexivity. Qed.

Example split_run :
  split (lit "a,b,,c,") COMMA = [lit "a"; lit "b"; []; lit "c"; []].
Proof. reflexivity. Qed.

Example splitlines_run :
  splitlines [0x0d; 0x0a; 0x61; 0x0d; 0x62; 0x0a; 0x0a; 0x63]%N
  = [[]; lit "a"; lit "b"; []; lit "c"].
Proof. reflexivity. Qed.

Example ed_eval_run : ed_eval (lit "kitten") (lit "sitting") = 3.
Proof. reflexivity. Qed.

(** * Further properties of the code *)

(** ** The tokenizer *)

Lemma tokens_of_lines_length (lines : list str) :
  length (tokens_of_lines lines) = length (filter (has_char TAB) lines).
Proof.
  induction lines as [|line lines IH]; simpl; [reflexivity|].
  unfold tokens_of_line. destruct (has_char TAB line); simpl; now rewrite IH.
Qed.

Lemma tokens_of_lines_surfaces (lines : list str) :
  map Token.surface_form (tokens_of_lines lines)
  = map (fun line => nth 0 (split line TAB) [])
      (filter (has_char TAB) lines).
Proof.
  induction lines as [|line lines IH]; simpl; [reflexivity|].
  unfold tokens_of_line at 1.
  destruct (has_char TAB line); simpl; now rewrite IH.
Qed.

(** X1. [tokenize] never raises, whatever the tagger returns: it yields
    one token for
    each line that has a tab, the last line left aside, in the order of the
    lines, the text before the first tab as surface form. *)
Theorem tokenize_one_token_per_tab_line (mecab_parse : str -> str)
  (text : str) :
  let lines := drop_last (splitlines (mecab_parse text)) in
  exists tokens,
    tokenize mecab_parse text = Ok tokens /\
    length tokens = length (filter (has_char TAB) lines) /\
    map Token.surface_form tokens
    = map (fun line => nth 0 (split line TAB) [])
        (filter (has_char TAB) lines).
Proof.
  intros lines. exists (tokens_of_lines lines).
  split; [apply tokenize_tokens|].
  split; [apply tokens_of_lines_length|apply tokens_of_lines_surfaces].
Qed.

Lemma split_Forall (P : N -> Prop) (s : str) (sep : N) :
  Forall P s -> Forall (Forall P) (split s sep).
Proof.
  induction 1 as [|c s Hc Hs IH]; simpl.
  - repeat constructor.
  - destruct (N.eqb c sep).
    + now constructor.
    + destruct (split s sep) as [|f fs].
      * repeat constructor. exact Hc.
      * inversion IH; subst. constructor; [now constructor|assumption].
Qed.

Lemma split_no_sep (s : str) (sep : N) :
  Forall (Forall (fun c => c <> sep)) (split s sep).
Proof.
  induction s as [|c s IH]; simpl.
  - repeat constructor.
  - destruct (N.eqb_spec c sep) as [Heq|Hne].
    + now constructor.
    + destruct (split s sep) as [|f fs].
      * repeat constructor. exact Hne.
      * inversion IH; subst. constructor; [now constructor|assumption].
Qed.

Lemma Forall_and_list {A} (P Q : A -> Prop) (l : list (list A)) :
  Forall (Forall P) l -> Forall (Forall Q) l ->
  Forall (Forall (fun a => P a /\ Q a)) l.
Proof.
  induction 1 as [|x l Hx Hl IH]; intros HQ; [constructor|].
  inversion HQ; subst. constructor; [|now apply IH].
  apply Forall_forall. intros a Ha. rewrite Forall_forall in *. auto.
Qed.

Lemma nth_Forall {A} (P : A -> Prop) (l : list A) (d : A) (i : nat) :
  Forall P l -> P d -> P (nth i l d).
Proof.
  intros Hl Hd. destruct (Nat.lt_ge_cases i (length l)) as [Hlt|Hge].
  - rewrite Forall_forall in Hl. now apply Hl, nth_In.
  - now rewrite nth_overflow.
Qed.

Lemma splitlines_no_break_upto (n : nat) (s : str) :
  length s <= n ->
  Forall (Forall (fun c => is_linebreak c = false)) (splitlines s).
Proof.
  revert s. induction n as [|n IH]; intros [|c s] Hlen; simpl in *;
    try constructor; try lia.
  destruct (is_linebreak c) eqn:Hc.
  - constructor; [constructor|].
    destruct s as [|c' s']; [constructor|].
    destruct (N.eqb c 13 && N.eqb c' 10); apply IH; simpl in *; lia.
  - assert (Hs : Forall (Forall (fun c => is_linebreak c = false))
                   (splitlines s)) by (apply IH; lia).
    destruct (splitlines s) as [|l ls].
    + repeat constructor. exact Hc.
    + inversion Hs; subst. constructor; [now constructor|assumption].
Qed.

Lemma splitlines_no_break (s : str) :
  Forall (Forall (fun c => is_linebreak c = false)) (splitlines s).
Proof. now apply (@splitlines_no_break_upto (length s) s). Qed.

Lemma Forall_removelast {A} (P : A -> Prop) (l : list A) :
  Forall P l -> Forall P (removelast l).
Proof.
  induction 1 as [|x l Hx Hl IH]; simpl; [constructor|].
  destruct l; [constructor|]. now constructor.
Qed.

Lemma star_field : Forall field_char STAR.
Proof. repeat constructor; discriminate. Qed.

Lemma field_is_surface (f : str) : Forall field_char f -> Forall surface_char f.
Proof.
  apply Forall_impl. intros c (_ & Htab & Hbr). now split.
Qed.

Lemma tokens_of_line_clean (line : str) :
  Forall (fun c => is_linebreak c = false) line ->
  Forall clean_token (tokens_of_line line).
Proof.
  intros Hline. unfold tokens_of_line.
  destruct (has_char TAB line); [|constructor].
  constructor; [|constructor].
  assert (Hparts : Forall (Forall surface_char) (split line TAB)).
  { apply Forall_and_list; [apply split_no_sep|now apply split_Forall]. }
  set (surface := nth 0 (split line TAB) []).
  assert (Hsurface : Forall surface_char surface)
    by (apply nth_Forall; [exact Hparts|constructor]).
  assert (Hfeatures : Forall surface_char (nth 1 (split line TAB) []))
    by (apply nth_Forall; [exact Hparts|constructor]).
  assert (Hfields : Forall (Forall field_char)
                      (split (nth 1 (split line TAB) []) COMMA)).
  { apply Forall_and_list; [apply split_no_sep|].
    apply split_Forall. exact Hfeatures. }
  unfold clean_token, token_with_defaults; simpl.
  split; [exact Hsurface|]. split.
  - apply nth_Forall; [|exact Hsurface].
    eapply Forall_impl; [apply field_is_surface|exact Hfields].
  - repeat constructor;
      (apply nth_Forall; [exact Hfields|try apply star_field; constructor]).
Qed.

Lemma tokens_of_lines_clean (lines : list str) :
  Forall (Forall (fun c => is_linebreak c = false)) lines ->
  Forall clean_token (tokens_of_lines lines).
Proof.
  unfold tokens_of_lines.
  induction 1 as [|line lines Hline _ IH]; simpl; [constructor|].
  apply Forall_app. split; [now apply tokens_of_line_clean|exact IH].
Qed.

(** X2. No field of a token [tokenize] returns holds a tab or a line
    break, and no grammatical field read from the record (all but the basic
    form, which may be the surface form) holds a comma. *)
Theorem tokenize_fields_clean (mecab_parse : str -> str) (text : str) :
  exists tokens,
    tokenize mecab_parse text = Ok tokens /\ Forall clean_token tokens.
Proof.
  eexists. split; [apply tokenize_tokens|].
  apply tokens_of_lines_clean, Forall_removelast, splitlines_no_break.
Qed.

Lemma has_char_app_sep (a b : str) (sep : N) :
  has_char sep (a ++ sep :: b) = true.
Proof.
  unfold has_char. rewrite existsb_app; simpl.
  now rewrite N.eqb_refl, orb_true_r.
Qed.

Lemma split_app_sep (a b : str) (sep : N) :
  Forall (fun c => c <> sep) a ->
  split (a ++ sep :: b) sep = a :: split b sep.
Proof.
  induction 1 as [|c a Hc Ha IH]; simpl.
  - now rewrite N.eqb_refl.
  - destruct (N.eqb_spec c sep) as [Heq|_]; [contradiction|].
    now rewrite IH.
Qed.

Lemma split_whole (a : str) (sep : N) :
  Forall (fun c => c <> sep) a -> split a sep = [a].
Proof.
  induction 1 as [|c a Hc Ha IH]; simpl; [reflexivity|].
  destruct (N.eqb_spec c sep) as [Heq|_]; [contradiction|].
  now rewrite IH.
Qed.

(** Cutting at the separator what was joined with it gives the pieces
    back. *)
Lemma split_join (f : str) (fs : list str) (sep : N) :
  Forall (Forall (fun c => c <> sep)) (f :: fs) ->
  split (join [sep] (f :: fs)) sep = f :: fs.
Proof.
  revert f. induction fs as [|g fs IH]; intros f Hall.
  - inversion Hall; subst. now apply split_whole.
  - inversion Hall as [|? ? Hf Hrest]; subst.
    change (join [sep] (f :: g :: fs)) with (f ++ sep :: join [sep] (g :: fs)).
    rewrite split_app_sep by exact Hf. now rewrite IH.
Qed.

Lemma join_Forall (P : N -> Prop) (sep : N) (l : list str) :
  P sep -> Forall (Forall P) l -> Forall P (join [sep] l).
Proof.
  intros Hsep. induction 1 as [|f fs Hf Hfs IH]; [constructor|].
  destruct fs as [|g fs]; [exact Hf|].
  change (join [sep] (f :: g :: fs)) with (f ++ sep :: join [sep] (g :: fs)).
  apply Forall_app. split; [exact Hf|]. constructor; [exact Hsep|exact IH].
Qed.

(** X3. Reading back a line written in the tagger's format gives the token
    it was written from, provided the surface form holds no tab and the
    nine fields hold neither comma nor tab. *)
Theorem token_of_line_round_trip (token : Token.t)
  (Hsurface : Forall (fun c => c <> TAB) (Token.surface_form token))
  (Hfields : Forall (Forall (fun c => c <> COMMA /\ c <> TAB))
               [Token.pos token; Token.pos_detail_1 token;
                Token.pos_detail_2 token; Token.pos_detail_3 token;
                Token.conjugated_type token; Token.conjugated_form token;
                Token.basic_form token; Token.reading token;
                Token.pronunciation token]) :
  token_of_line (line_of_token token) = Ok (Some token).
Proof.
  rewrite token_of_line_tokens. unfold tokens_of_line, line_of_token.
  set (fields := [Token.pos token; _; _; _; _; _; _; _; _]) in *.
  assert (Hfeatures : Forall (fun c => c <> TAB) (join [COMMA] fields)).
  { apply join_Forall; [discriminate|].
    eapply Forall_impl; [|exact Hfields].
    intros f. apply Forall_impl. now intros c [_ Hc]. }
  assert (Hsplit : split (join [COMMA] fields) COMMA = fields).
  { apply split_join. eapply Forall_impl; [|exact Hfields].
    intros f. apply Forall_impl. now intros c [Hc _]. }
  set (features := join [COMMA] fields) in *.
  change (?a ++ [TAB] ++ ?b) with (a ++ TAB :: b).
  rewrite has_char_app_sep, split_app_sep by exact Hsurface.
  rewrite (split_whole Hfeatures). cbn [nth]. rewrite Hsplit.
  now destruct token.
Qed.

(** The suffix noun of the examples, written and read back. *)
Lemma token_of_line_round_trip_witness :
  token_of_line (line_of_token suffix_noun) = Ok (Some suffix_noun).
Proof.
  apply token_of_line_round_trip.
  - repeat constructor; discriminate.
  - repeat constructor; discriminate.
Defined.

(** ** The break decision, field by field *)

Lemma starts_with_before_sep (p s b : str) (c : N) :
  has_char c p = false ->
  starts_with p (s ++ c :: b) = starts_with p s.
Proof.
  revert s. induction p as [|x p IH]; intros s Hp; [now destruct s|].
  simpl in Hp. apply orb_false_elim in Hp as [Hx Hp].
  destruct s as [|y s]; simpl.
  - rewrite N.eqb_sym in Hx. now rewrite Hx.
  - now rewrite IH.
Qed.

(** A string without the separator occurs in two strings joined by it
    exactly when it occurs in one of them. *)
Lemma contains_app_sep (sub a b : str) (c : N) :
  sub <> [] -> has_char c sub = false ->
  contains sub (a ++ c :: b) = contains sub a || contains sub b.
Proof.
  intros Hne Hc. induction a as [|y a IH].
  - destruct sub as [|x sub]; [contradiction|].
    simpl in Hc. apply orb_false_elim in Hc as [Hx _].
    rewrite N.eqb_sym in Hx.
    change ([] ++ c :: b) with (c :: b).
    simpl. now rewrite Hx.
  - change ((y :: a) ++ c :: b) with (y :: (a ++ c :: b)).
    change (contains sub (y :: (a ++ c :: b)))
      with (starts_with sub ((y :: a) ++ c :: b) || contains sub (a ++ c :: b)).
    change (contains sub (y :: a))
      with (starts_with sub (y :: a) || contains sub a).
    rewrite starts_with_before_sep by exact Hc.
    rewrite IH. now rewrite orb_assoc.
Qed.

Lemma contains_details (marker : str) (token : Token.t) :
  marker <> [] -> has_char COMMA marker = false ->
  contains marker (pos_detail_of token)
  = existsb (contains marker) (details token).
Proof.
  intros Hne Hc. unfold pos_detail_of, details.
  change (join [COMMA] [?a; ?b; ?c]) with (a ++ COMMA :: (b ++ COMMA :: c)).
  rewrite !contains_app_sep by assumption.
  simpl. now rewrite orb_false_r.
Qed.

(** X4. The tests of the markers (suffix, irregular verbal noun
    connection, non-independent) on the three detail fields joined by
    commas find a marker exactly when one of the three fields holds it: a
    marker never matches across two fields. *)
Theorem detail_markers_fieldwise (token : Token.t) :
  contains SETSUBI (pos_detail_of token)
  = existsb (contains SETSUBI) (details token) /\
  contains SAHEN_SETSUZOKU (pos_detail_of token)
  = existsb (contains SAHEN_SETSUZOKU) (details token) /\
  contains HIJIRITSU (pos_detail_of token)
  = existsb (contains HIJIRITSU) (details token).
Proof.
  repeat split; apply contains_details; (discriminate || reflexivity).
Qed.

Lemma str_eqb_eq (a b : str) : str_eqb a b = true <-> a = b.
Proof.
  unfold str_eqb. destruct (list_eq_dec N.eq_dec a b); split; easy.
Qed.

(** X5. With the flag false, a break is decided only before a token of a
    boundary part of speech none of whose detail fields holds the suffix or
    the non-independent marker, and never right after a prefix. *)
Theorem should_break_false_excludes (previous : option Token.t)
  (token : Token.t)
  (Hbreak : should_break false previous token = true) :
  In (Token.pos token) phrase_break_pos_tags /\
  existsb (contains SETSUBI) (details token) = false /\
  existsb (contains HIJIRITSU) (details token) = false /\
  forall p, previous = Some p -> Token.pos p <> SETTOUSHI.
Proof.
  rewrite should_break_break_rule in Hbreak.
  unfold break_rule in Hbreak. cbn [negb] in Hbreak.
  apply andb_prop in Hbreak as [Hbase Hrules].
  unfold base_condition in Hbase. unfold suppression_rules in Hrules.
  apply andb_prop in Hrules as [Hrules Hprev].
  apply andb_prop in Hrules as [Hrules Hdep].
  apply andb_prop in Hrules as [Hsuffix _].
  rewrite <- !contains_details by (discriminate || reflexivity).
  split.
  { apply existsb_exists in Hbase as (tag & Hin & Heq).
    apply str_eqb_eq in Heq. now subst. }
  split; [now apply negb_true_iff|].
  split; [now apply negb_true_iff|].
  intros p ->.
  apply andb_prop in Hprev as [Hprev _]. apply negb_true_iff in Hprev.
  intros Heq. apply str_eqb_eq in Heq. congruence.
Qed.

(** The adjective of scenario C, first of its text. *)
Lemma should_break_false_excludes_witness :
  In KEIYOUSHI phrase_break_pos_tags /\
  existsb (contains SETSUBI) [STAR; STAR; STAR] = false.
Proof.
  destruct (@should_break_false_excludes None
              (Token.mk [0x5e83; 0x3044]%N KEIYOUSHI STAR STAR STAR STAR STAR
                 [0x5e83; 0x3044]%N (lit "hiroi") (lit "hiroi")) eq_refl)
    as (Hin & Hsuffix & _).
  split; [exact Hin|exact Hsuffix].
Defined.

(** ** The phrases as blocks of tokens *)

Section Blocks.

Variable flag : bool.

Lemma phrase_of_tokens_snoc (block : list Token.t) (token : Token.t) :
  phrase_of_tokens (block ++ [token])
  = Phrase.mk
      (Phrase.surface (phrase_of_tokens block) ++ Token.surface_form token)
      (Phrase.pronunciation (phrase_of_tokens block)
       ++ Token.pronunciation token).
Proof.
  unfold phrase_of_tokens; simpl.
  now rewrite !map_app, !concat_app; simpl; rewrite !app_nil_r.
Qed.

Lemma emit_block (done : list (list Token.t)) (block : list Token.t) :
  emit (map phrase_of_tokens (filter has_surface done))
       (phrase_of_tokens block)
  = map phrase_of_tokens (filter has_surface (done ++ [block])).
Proof.
  rewrite filter_app, map_app; simpl. unfold emit, has_surface; simpl.
  destruct (truthy (concat (map Token.surface_form block))); simpl.
  - reflexivity.
  - now rewrite app_nil_r.
Qed.

Lemma machine_step_break (m : machine) (token : Token.t) :
  should_break flag (previous m) token = true ->
  machine_step flag m token
  = mk_machine (emit (emitted m) (accumulator m))
      (phrase_of_tokens [token]) (Some token).
Proof.
  intros H. unfold machine_step, phrase_of_tokens. rewrite H; simpl.
  now rewrite !app_nil_r.
Qed.

Lemma machine_step_continue (m : machine) (token : Token.t) :
  should_break flag (previous m) token = false ->
  machine_step flag m token
  = mk_machine (emitted m)
      (Phrase.mk
         (Phrase.surface (accumulator m) ++ Token.surface_form token)
         (Phrase.pronunciation (accumulator m) ++ Token.pronunciation token))
      (Some token).
Proof. intros H. unfold machine_step. now rewrite H. Qed.

Lemma machine_blocks (tokens : list Token.t) (m : machine)
  (done : list (list Token.t)) (block : list Token.t) :
  emitted m = map phrase_of_tokens (filter has_surface done) ->
  accumulator m = phrase_of_tokens block ->
  emit (emitted (fold_left (machine_step flag) tokens m))
       (accumulator (fold_left (machine_step flag) tokens m))
  = map phrase_of_tokens
      (filter has_surface
         (done ++ blocks_from flag (previous m) block tokens)).
Proof.
  revert m done block.
  induction tokens as [|token tokens IH]; intros m done block Hout Hacc.
  - simpl. rewrite Hout, Hacc. apply emit_block.
  - simpl. destruct (should_break flag (previous m) token) eqn:Hbreak.
    + rewrite (machine_step_break _ _ Hbreak).
      rewrite (IH _ (done ++ [block]) [token]); simpl.
      * now rewrite <- app_assoc.
      * rewrite Hout, Hacc. apply emit_block.
      * reflexivity.
    + rewrite (machine_step_continue _ _ Hbreak).
      rewrite (IH _ done (block ++ [token])); simpl.
      * reflexivity.
      * exact Hout.
      * now rewrite Hacc, phrase_of_tokens_snoc.
Qed.

Lemma blocks_from_concat (tokens : list Token.t)
  (previous : option Token.t) (block : list Token.t) :
  concat (blocks_from flag previous block tokens) = block ++ tokens.
Proof.
  revert previous block.
  induction tokens as [|token tokens IH]; intros previous block; simpl.
  - reflexivity.
  - destruct (should_break flag previous token); simpl; rewrite IH.
    + reflexivity.
    + now rewrite <- app_assoc.
Qed.

Lemma segment_blocks (tokens : list Token.t) :
  segment tokens flag
  = map phrase_of_tokens
      (filter has_surface (blocks_from flag None [] tokens)).
Proof.
  rewrite segment_refines. unfold run_machine.
  now rewrite (@machine_blocks tokens machine_init [] []).
Qed.

Lemma should_break_base (previous : option Token.t) (token : Token.t) :
  should_break flag previous token = true -> base_condition token = true.
Proof.
  rewrite should_break_break_rule. unfold break_rule.
  intros H. now apply andb_prop in H as [H _].
Qed.

Lemma blocks_from_no_break (tokens : list Token.t)
  (previous : option Token.t) (block : list Token.t) :
  Forall (fun token => base_condition token = false) tokens ->
  blocks_from flag previous block tokens = [block ++ tokens].
Proof.
  intros Hall. revert previous block.
  induction Hall as [|token tokens Htoken _ IH]; intros previous block; simpl.
  - now rewrite app_nil_r.
  - destruct (should_break flag previous token) eqn:Hbreak.
    + apply should_break_base in Hbreak. congruence.
    + now rewrite IH, <- app_assoc.
Qed.

End Blocks.

(** X6. The tokens fall into consecutive blocks that together are the
    whole input; each phrase is one block, its surface and its
    pronunciation the concatenations over the same tokens, and the blocks
    that give no phrase are those without surface. *)
Theorem segment_phrases_are_blocks (tokens : list Token.t) (flag : bool) :
  exists blocks : list (list Token.t),
    concat blocks = tokens /\
    segment tokens flag
    = map phrase_of_tokens (filter has_surface blocks).
Proof.
  exists (blocks_from flag None [] tokens).
  split; [apply blocks_from_concat|apply segment_blocks].
Qed.

(** X7. A text in which no token after the first has a boundary part of
    speech makes one phrase, of all its tokens (no phrase if no token has a
    surface): a break before the first token emits nothing. *)
Theorem segment_single_phrase (first : Token.t) (rest : list Token.t)
  (flag : bool)
  (Hrest : Forall (fun token => base_condition token = false) rest) :
  segment (first :: rest) flag
  = if has_surface (first :: rest)
    then [phrase_of_tokens (first :: rest)]
    else [].
Proof.
  rewrite segment_blocks. simpl blocks_from.
  destruct (should_break flag None first);
    rewrite (blocks_from_no_break _ _ _ Hrest); simpl;
    now destruct (has_surface (first :: rest)).
Qed.

(** Scenario C: the particle after the adjective is no boundary. *)
Lemma segment_single_phrase_witness :
  segment scenario_c true
  = [Phrase.mk [0x5e83; 0x3044; 0x306a]%N (lit "hiroina")].
Proof.
  assert (Hrest : Forall (fun token => base_condition token = false)
                    [Token.mk [0x306a]%N JOSHI STAR STAR STAR STAR STAR
                       [0x306a]%N (lit "na") (lit "na")])
    by (repeat constructor).
  exact (@segment_single_phrase
           (Token.mk [0x5e83; 0x3044]%N KEIYOUSHI STAR STAR STAR STAR STAR
              [0x5e83; 0x3044]%N (lit "hiroi") (lit "hiroi"))
           _ true Hrest).
Defined.

(** ** Counting phrases *)

Lemma weight_app (a b : str) :
  weight (a ++ b) = Nat.max (weight a) (weight b).
Proof. now destruct a, b. Qed.

Lemma emit_length (out : list Phrase.t) (acc : Phrase.t) :
  length (emit out acc) = length out + weight (Phrase.surface acc).
Proof.
  unfold emit, weight. destruct (truthy (Phrase.surface acc)).
  - rewrite length_app; simpl. lia.
  - lia.
Qed.

Lemma weight_suffix (x a : str) : weight a <= weight (x ++ a).
Proof. rewrite weight_app. lia. Qed.

(** The suppression rules only take breaks away. *)
Lemma should_break_flag (previous : option Token.t) (token : Token.t) :
  should_break false previous token = true ->
  should_break true previous token = true.
Proof.
  rewrite !should_break_break_rule. unfold break_rule; simpl.
  intros H. apply andb_prop in H as [H _]. now rewrite H.
Qed.

(** The machine run with the flag false ([m1]) against the machine run
    with the flag true ([m2]) on the same tokens. *)
Lemma machine_step_fewer (m1 m2 : machine) (token : Token.t) (x : str) :
  previous m1 = previous m2 ->
  Phrase.surface (accumulator m1) = x ++ Phrase.surface (accumulator m2) ->
  length (emit (emitted m1) (accumulator m1))
  <= length (emit (emitted m2) (accumulator m2)) ->
  let m1' := machine_step false m1 token in
  let m2' := machine_step true m2 token in
  previous m1' = previous m2' /\
  (exists x', Phrase.surface (accumulator m1')
              = x' ++ Phrase.surface (accumulator m2')) /\
  length (emit (emitted m1') (accumulator m1'))
  <= length (emit (emitted m2') (accumulator m2')).
Proof.
  intros Hprev Hsuffix Hcount. rewrite !emit_length in Hcount.
  pose proof (weight_suffix x (Phrase.surface (accumulator m2))) as Hw.
  rewrite <- Hsuffix in Hw.
  unfold machine_step. rewrite <- Hprev.
  pose proof (@should_break_flag (previous m1) token) as Hflag.
  destruct (should_break false (previous m1) token) eqn:H1.
  - rewrite (Hflag eq_refl); simpl.
    split; [reflexivity|]. split; [now exists []|].
    rewrite ?emit_length; simpl. rewrite ?emit_length. lia.
  - destruct (should_break true (previous m1) token) eqn:H2; simpl.
    + split; [reflexivity|].
      split; [now exists (Phrase.surface (accumulator m1))|].
      rewrite ?emit_length; simpl. rewrite ?emit_length, ?weight_app. lia.
    + split; [reflexivity|]. split.
      * exists x. now rewrite Hsuffix, app_assoc.
      * rewrite ?emit_length; simpl. rewrite ?weight_app. lia.
Qed.

Lemma machine_fold_fewer (tokens : list Token.t) (m1 m2 : machine)
  (x : str) :
  previous m1 = previous m2 ->
  Phrase.surface (accumulator m1) = x ++ Phrase.surface (accumulator m2) ->
  length (emit (emitted m1) (accumulator m1))
  <= length (emit (emitted m2) (accumulator m2)) ->
  let m1' := fold_left (machine_step false) tokens m1 in
  let m2' := fold_left (machine_step true) tokens m2 in
  length (emit (emitted m1') (accumulator m1'))
  <= length (emit (emitted m2') (accumulator m2')).
Proof.
  revert m1 m2 x.
  induction tokens as [|token tokens IH]; intros m1 m2 x Hprev Hsuffix Hcount.
  - exact Hcount.
  - simpl.
    destruct (@machine_step_fewer m1 m2 token x Hprev Hsuffix Hcount)
      as (Hprev' & (x' & Hsuffix') & Hcount').
    exact (IH _ _ x' Hprev' Hsuffix' Hcount').
Qed.

(** X8. Setting the flag to false never gives more phrases than the
    default does on the same tokens. *)
Theorem segment_flag_false_fewer_phrases (tokens : list Token.t) :
  length (segment tokens false) <= length (segment tokens true).
Proof.
  rewrite !segment_refines. unfold run_machine.
  now apply (@machine_fold_fewer tokens machine_init machine_init []).
Qed.

Lemma machine_step_bound (flag : bool) (m : machine) (token : Token.t) :
  length (emit (emitted (machine_step flag m token))
               (accumulator (machine_step flag m token)))
  <= length (emit (emitted m) (accumulator m))
     + weight (Token.surface_form token).
Proof.
  unfold machine_step.
  destruct (should_break flag (previous m) token); simpl;
    rewrite ?emit_length; simpl; rewrite ?emit_length, ?weight_app; lia.
Qed.

Lemma surfaced_cons (token : Token.t) (tokens : list Token.t) :
  length (filter (fun t => truthy (Token.surface_form t)) (token :: tokens))
  = weight (Token.surface_form token)
    + length (filter (fun t => truthy (Token.surface_form t)) tokens).
Proof.
  simpl. unfold weight. now destruct (truthy (Token.surface_form token)).
Qed.

Lemma machine_fold_bound (flag : bool) (tokens : list Token.t)
  (m : machine) :
  length (emit (emitted (fold_left (machine_step flag) tokens m))
               (accumulator (fold_left (machine_step flag) tokens m)))
  <= length (emit (emitted m) (accumulator m))
     + length (filter (fun token => truthy (Token.surface_form token))
                 tokens).
Proof.
  revert m. induction tokens as [|token tokens IH]; intros m.
  - simpl. lia.
  - rewrite surfaced_cons. simpl fold_left.
    pose proof (IH (machine_step flag m token)) as Hrest.
    pose proof (machine_step_bound flag m token) as Hstep.
    lia.
Qed.

(** X9. There are at most as many phrases as tokens with a non-empty
    surface form. *)
Theorem segment_length_bound (tokens : list Token.t) (flag : bool) :
  length (segment tokens flag)
  <= length (filter (fun token => truthy (Token.surface_form token)) tokens).
Proof.
  rewrite segment_refines. unfold run_machine.
  apply (machine_fold_bound flag tokens machine_init).
Qed.

(** ** Ties and exact matches in the ranking *)

Section Ranking.

Context {A : Type} (key : A -> nat).

Lemma insert_by_least (x : A) (l : list A) :
  Forall (fun c => key x <= key c) l -> insert_by key x l = x :: l.
Proof.
  destruct 1 as [|y l Hy _]; simpl; [reflexivity|].
  apply Nat.leb_le in Hy. now rewrite Hy.
Qed.

(** An element smaller than all before it and not larger than any after
    it comes first. *)
Lemma py_sorted_first (before after : list A) (x : A) :
  Forall (fun c => key x < key c) before ->
  Forall (fun c => key x <= key c) after ->
  py_sorted key (before ++ x :: after)
  = x :: py_sorted key (before ++ after).
Proof.
  intros Hbefore Hafter.
  induction Hbefore as [|b before Hb _ IH]; simpl.
  - apply insert_by_least.
    apply Forall_forall. intros c Hc.
    apply (Permutation_in _ (Permutation_sym (py_sorted_perm key after))) in Hc.
    rewrite Forall_forall in Hafter. now apply Hafter.
  - rewrite IH. simpl.
    destruct (Nat.leb_spec (key b) (key x)); [lia|reflexivity].
Qed.

Lemma py_sorted_fixed (l : list A) :
  StronglySorted (le_by key) l -> py_sorted key l = l.
Proof.
  induction 1 as [|x l _ IH Hx]; simpl; [reflexivity|].
  rewrite IH. now apply insert_by_least.
Qed.

End Ranking.

(** X10. The closest word is the first one, in the order of the word list,
    among those at the least distance: a word nearer than every word before
    it and as near as any word after it is the one returned. *)
Theorem match_closest_first_of_nearest (phrase : Phrase.t)
  (before after : list WordEntry.t) (word : WordEntry.t)
  (Hbefore : Forall (fun c => calculate_distance phrase word
                              < calculate_distance phrase c) before)
  (Hafter : Forall (fun c => calculate_distance phrase word
                             <= calculate_distance phrase c) after) :
  match_closest phrase (before ++ word :: after) = Ok word /\
  find_closest_word phrase (before ++ word :: after)
  = Ok (Closest.mk word phrase).
Proof.
  rewrite find_closest_word_match. unfold match_closest.
  rewrite sort_by_distance_py_sorted.
  rewrite (@py_sorted_first _ (calculate_distance phrase) before after word
             Hbefore Hafter).
  now split.
Qed.

(** "umi" and "yumi" are both at distance 1 of "uumi"; the first listed
    wins. *)
Lemma match_closest_first_of_nearest_witness :
  match_closest (Phrase.mk (lit "uumi") (lit "uumi"))
    ([WordEntry.mk 0 (lit "sora") (lit "sora")]
     ++ WordEntry.mk 1 (lit "umi") (lit "umi")
     :: [WordEntry.mk 2 (lit "yumi") (lit "yumi")])
  = Ok (WordEntry.mk 1 (lit "umi") (lit "umi")).
Proof.
  refine (proj1 (@match_closest_first_of_nearest
                   (Phrase.mk (lit "uumi") (lit "uumi"))
                   [WordEntry.mk 0 (lit "sora") (lit "sora")]
                   [WordEntry.mk 2 (lit "yumi") (lit "yumi")]
                   (WordEntry.mk 1 (lit "umi") (lit "umi")) _ _)).
  - repeat constructor.
  - repeat constructor.
Defined.

Lemma ed_eval_zero (a b : str) : ed_eval a b = 0 -> a = b.
Proof.
  revert b. induction a as [|x a IH]; intros [|y b]; simpl; try easy.
  destruct (N.eqb_spec x y) as [->|_]; [|discriminate].
  intros H. f_equal. now apply IH.
Qed.

(** X11. When a word of the list is pronounced as the phrase is, the
    closest word is the first such word of the list, at distance 0. *)
Theorem match_closest_same_pronunciation (phrase : Phrase.t)
  (before after : list WordEntry.t) (word : WordEntry.t)
  (Hbefore : Forall (fun c => WordEntry.pronunciation c
                              <> Phrase.pronunciation phrase) before)
  (Hword : WordEntry.pronunciation word = Phrase.pronunciation phrase) :
  match_closest phrase (before ++ word :: after) = Ok word /\
  calculate_distance phrase word = 0.
Proof.
  assert (Hzero : calculate_distance phrase word = 0).
  { unfold calculate_distance, pronunciation_of, Pronounced_Phrase,
      Pronounced_WordEntry. rewrite Hword. apply ed_eval_same. }
  split; [|exact Hzero].
  unfold match_closest. rewrite sort_by_distance_py_sorted.
  rewrite (@py_sorted_first _ (calculate_distance phrase) before after word).
  - reflexivity.
  - eapply Forall_impl; [|exact Hbefore]. intros c Hc. rewrite Hzero.
    destruct (calculate_distance phrase c) eqn:Hd; [|lia].
    apply ed_eval_zero in Hd. now symmetry in Hd.
  - apply Forall_forall. intros c _. rewrite Hzero. lia.
Qed.

(** Scenario B: the first of the two words pronounced "kawa". *)
Lemma match_closest_same_pronunciation_witness :
  match_closest (Phrase.mk (lit "kawa") (lit "kawa"))
    ([WordEntry.mk 0 (lit "a") (lit "yama")]
     ++ WordEntry.mk 2 (lit "b") (lit "kawa")
     :: [WordEntry.mk 3 (lit "c") (lit "umi");
         WordEntry.mk 5 (lit "d") (lit "kawa")])
  = Ok (WordEntry.mk 2 (lit "b") (lit "kawa")).
Proof.
  refine (proj1 (@match_closest_same_pronunciation
                   (Phrase.mk (lit "kawa") (lit "kawa"))
                   [WordEntry.mk 0 (lit "a") (lit "yama")]
                   [WordEntry.mk 3 (lit "c") (lit "umi");
                    WordEntry.mk 5 (lit "d") (lit "kawa")]
                   (WordEntry.mk 2 (lit "b") (lit "kawa")) _ eq_refl)).
  repeat constructor. discriminate.
Defined.

(** X12. A word list already in non-decreasing order of distance to the
    target is returned as it is. *)
Theorem sort_by_distance_sorted_input (target_word : Phrase.t)
  (wordlist : list WordEntry.t)
  (Hsorted : StronglySorted
               (fun a b => calculate_distance target_word a
                           <= calculate_distance target_word b) wordlist) :
  sort_by_distance target_word wordlist = wordlist.
Proof.
  rewrite sort_by_distance_py_sorted. now apply py_sorted_fixed.
Qed.

(** The distances to "umi" are 0 for "umi", 3 for "yama" and 4 for
    "sora". *)
Lemma sort_by_distance_sorted_input_witness :
  sort_by_distance (Phrase.mk (lit "umi") (lit "umi"))
    [WordEntry.mk 0 (lit "umi") (lit "umi");
     WordEntry.mk 2 (lit "yama") (lit "yama");
     WordEntry.mk 1 (lit "sora") (lit "sora")]
  = [WordEntry.mk 0 (lit "umi") (lit "umi");
     WordEntry.mk 2 (lit "yama") (lit "yama");
     WordEntry.mk 1 (lit "sora") (lit "sora")].
Proof.
  apply sort_by_distance_sorted_input.
  repeat constructor; vm_compute; lia.
Defined.

(** X13. Ranking a ranking against the same target changes nothing. *)
Theorem sort_by_distance_idempotent (target_word : Phrase.t)
  (wordlist : list WordEntry.t) :
  sort_by_distance target_word (sort_by_distance target_word wordlist)
  = sort_by_distance target_word wordlist.
Proof.
  rewrite !sort_by_distance_py_sorted.
  apply py_sorted_fixed, py_sorted_sorted.
Qed.

(** ** Failures and compositions of the program *)

(** X14. Against an empty word list, a text without phrases gives the
    empty result and any other text raises [IndexError], at its first
    phrase. *)
Theorem find_closest_words_no_candidates (mecab_parse : str -> str)
  (text : str) (tokens : list Token.t)
  (Htokens : tokenize mecab_parse text = Ok tokens) :
  find_closest_words mecab_parse text []
  = match segment tokens true with
    | [] => Ok []
    | _ :: _ => Raise IndexError
    end.
Proof.
  unfold find_closest_words, split_text_into_phrases.
  rewrite Htokens; simpl. now destruct (segment tokens true).
Qed.

(** The text "Umi" has a phrase, the empty text has none. *)
Lemma find_closest_words_no_candidates_witness :
  find_closest_words toy_tagger (lit "Umi") [] = Raise IndexError /\
  find_closest_words toy_tagger [] [] = Ok [].
Proof.
  split.
  - exact (@find_closest_words_no_candidates toy_tagger (lit "Umi") _ eq_refl).
  - exact (@find_closest_words_no_candidates toy_tagger [] _ eq_refl).
Defined.

(** X15. A text whose tokens without surface have no pronunciation is
    pronounced as its phrases are, one after the other: the pronunciation
    [get_pronunciation] gives, as for a line of the word list, is the
    concatenation of the pronunciations of the phrases of
    [split_text_into_phrases], whatever the flag. *)
Theorem get_pronunciation_of_phrases (mecab_parse : str -> str)
  (text : str) (flag : bool) (tokens : list Token.t)
  (Htokens : tokenize mecab_parse text = Ok tokens)
  (Hsilent : Forall (fun token => Token.surface_form token = [] ->
                                  Token.pronunciation token = []) tokens) :
  exists phrases,
    split_text_into_phrases mecab_parse text flag = Ok phrases /\
    get_pronunciation mecab_parse text
    = Ok (concat (map Phrase.pronunciation phrases)).
Proof.
  exists (segment tokens flag).
  unfold split_text_into_phrases, get_pronunciation.
  rewrite Htokens; simpl. split; [reflexivity|].
  rewrite join_empty_concat, concat_filter_truthy, segment_refines.
  f_equal. symmetry. now apply run_machine_pronunciation.
Qed.

Lemma get_pronunciation_of_phrases_witness :
  exists phrases,
    split_text_into_phrases toy_tagger (lit "UmiSoro") true = Ok phrases /\
    get_pronunciation toy_tagger (lit "UmiSoro")
    = Ok (concat (map Phrase.pronunciation phrases)).
Proof.
  apply (@get_pronunciation_of_phrases toy_tagger (lit "UmiSoro") true _
           eq_refl).
  repeat constructor; intros H; vm_compute in H; discriminate H.
Defined.



(** ** The dicts of the returned list *)

Lemma sorted_snoc (l : list nat) (c : nat) :
  StronglySorted lt l -> Forall (fun a => a < c) l ->
  StronglySorted lt (l ++ [c]).
Proof.
  induction 1 as [|x l Hl IH Hx]; intros Hc; simpl.
  - repeat constructor.
  - inversion Hc; subst. constructor; [now apply IH|].
    apply Forall_app. split; [exact Hx|]. now repeat constructor.
Qed.

Lemma sorted_NoDup (l : list nat) : StronglySorted lt l -> NoDup l.
Proof.
  induction 1 as [|x l Hl IH Hx]; constructor; [|exact IH].
  intros Hin. rewrite Forall_forall in Hx. specialize (Hx x Hin). lia.
Qed.

Lemma append_current_sorted (h : Store.t) (segmented : list Store.addr)
  (current : Store.addr) :
  StronglySorted lt segmented ->
  Forall (fun a => a < current) segmented ->
  StronglySorted lt (append_current h segmented current).
Proof.
  intros Hs Hlt. unfold append_current.
  destruct (truthy _); [now apply sorted_snoc|exact Hs].
Qed.

Lemma loop_body_refs (flag : bool) (vars : loop_vars) (token : Token.t) :
  refs_in_order vars -> refs_in_order (loop_body flag vars token).
Proof.
  destruct vars as [h seg cur prev]. unfold refs_in_order; simpl.
  intros (Hsorted & Hlt & Hlen). unfold loop_body; simpl.
  destruct (should_break flag prev token); simpl.
  - split; [now apply append_current_sorted|]. split.
    + rewrite <- Hlen. now apply append_current_bound.
    + rewrite !StoreFacts.update_length, length_app; simpl. lia.
  - rewrite !StoreFacts.update_length. now repeat split.
Qed.

Lemma loop_fold_refs (flag : bool) (tokens : list Token.t)
  (vars : loop_vars) :
  refs_in_order vars ->
  refs_in_order (fold_left (loop_body flag) tokens vars).
Proof.
  revert vars. induction tokens as [|token tokens IH]; intros vars H.
  - exact H.
  - simpl. now apply IH, loop_body_refs.
Qed.

(** X17. The list returned holds each dict once: the phrases of the
    output are distinct objects, in their order of creation, and reading
    the list through the store gives [segment]. *)
Theorem segmented_refs_distinct (tokens : list Token.t) (flag : bool) :
  NoDup (segmented_refs tokens flag) /\
  StronglySorted lt (segmented_refs tokens flag) /\
  segment tokens flag
  = map (Store.get (phrases (fold_left (loop_body flag) tokens loop_init)))
      (segmented_refs tokens flag).
Proof.
  assert (Hinit : refs_in_order loop_init)
    by (unfold refs_in_order; simpl; repeat constructor).
  destruct (loop_fold_refs flag tokens Hinit) as (Hsorted & Hlt & _).
  assert (Hrefs : StronglySorted lt (segmented_refs tokens flag))
    by (now apply append_current_sorted).
  split; [now apply sorted_NoDup|]. split; [exact Hrefs|reflexivity].
Qed.
